(** * The [@midday/db] package on Cloudflare D1: schema, utilities and ledger core

    A shallow embedding of
    - [packages/db/src/utils/currency.ts]  (supported currencies),
    - the tax utilities ([calculateTax], [calculateAmountWithTax]),
    - [packages/db/src/schema.ts]          (the tables [teams], [transactions],
      [transactionMatchSuggestions], [invoices] and [inbox], their column
      defaults, primary keys and unique indexes, and the enum value lists),
    together with the operations of the ledger core (ingestion, inbox
    reconciliation, invoice numbering) that the design document describes
    and that work on those tables.

    TypeScript [number] is an IEEE-754 binary64 value and a SQLite [real]
    column stores the same format, so both are modelled by the executable
    binary64 specification of the Standard Library ([SpecFloat]).  On the
    way into a [real] column of [transactions] and of
    [transactionMatchSuggestions] a number goes through D1's parameter
    binding ([bind]), and on the way out of a relation through SQLite's JSON
    functions ([render]).  A [text] column is a [string], an [integer] column
    a [Z], a boolean column a [bool], and a column without [.notNull()] an
    [option]. *)

From Stdlib Require Import ZArith SpecFloat Ascii.
From stdpp Require Import base decidable option list strings numbers relations.

Open Scope string_scope.
Open Scope list_scope.
Open Scope Z_scope.

(** ** JavaScript numbers *)

Module JsNumber.
Definition prec : Z := 53.
Definition emax : Z := 1024.

Definition number : Type := spec_float.

(** An integer literal such as [100]. *)
Definition of_Z (z : Z) : number := binary_normalize prec emax z 0 false.

Definition NaN : number := S754_nan.
Definition Infinity : number := S754_infinity false.

Definition add : number → number → number := SFadd prec emax.
Definition mul : number → number → number := SFmul prec emax.
Definition div : number → number → number := SFdiv prec emax.

(** [a === b], [a < b] and [a <= b] on numbers. *)
Definition strictEquals : number → number → bool := SFeqb.
Definition lt : number → number → bool := SFltb.

(** [Number.isFinite]. *)
Definition isFinite (x : number) : bool :=
  match x with
  | S754_nan | S754_infinity _ => false
  | S754_zero _ | S754_finite _ _ _ => true
  end.

(** The decimal numeral [n / 10^k] as a number literal: for [|n|] and
    [10^k] below [2^53] the correctly rounded quotient is the binary64
    value nearest to the decimal. *)
Definition of_decimal (n : Z) (k : Z) : number := div (of_Z n) (of_Z (10 ^ k)).

(** The exact rational value [num / den] of a finite number. *)
Definition exact (x : number) : option (Z * Z) :=
  match x with
  | S754_zero _ => Some (0, 1)
  | S754_finite s m e =>
      let m' := if s then Z.neg m else Z.pos m in
      Some (if (0 <=? e)%Z then (m' * 2 ^ e, 1) else (m', 2 ^ (- e)))
  | S754_nan | S754_infinity _ => None
  end.

End JsNumber.
Import JsNumber.

(** ** utils/currency.ts *)

Definition currencies : list string :=
  ["USD"; "EUR"; "GBP"; "JPY"; "AUD"; "CAD"; "CHF"; "CNY"; "SEK"; "NZD"].

(** [currencies.includes(currency)] *)
Definition isSupportedCurrency (currency : string) : bool :=
  bool_decide (currency ∈ currencies).

(** ** Tax utilities *)

Definition calculateTax (amount rate : number) : number :=
  mul amount (div rate (of_Z 100)).

Definition calculateAmountWithTax (amount rate : number) : number :=
  add amount (calculateTax amount rate).

(** ** Errors of the core *)

Inductive Error :=
  | ValidationError
  | ConflictError
  | DependencyError
  | NotFoundError.

Inductive Result (A : Type) :=
  | Ok (a : A)
  | Fail (e : Error).
Arguments Ok {A} a.
Arguments Fail {A} e.

(** ** Tables

    A table is the list of its rows in insertion order.  [sqliteTable]
    declares a primary key and unique indexes; every unique index of the
    tables below is on a single text column, so an index is the function
    reading that column.  A [NULL] never collides in a unique index.  A
    statement that would break the primary key or a unique index fails as a
    whole and leaves the table as it was. *)

Module Table.
Section Table.
Context {R : Type}.
Variable primaryKey : R → string.
Variable uniqueIndexes : list (R → option string).

Definition Consistent (t : list R) : Prop :=
  NoDup (primaryKey <$> t) ∧ Forall (λ ix, NoDup (omap ix t)) uniqueIndexes.

#[global] Instance Consistent_dec (t : list R) : Decision (Consistent t).
Proof. unfold Consistent. apply _. Defined.

Definition commit (t' : list R) : option (list R) :=
  if decide (Consistent t') then Some t' else None.

Definition insert (r : R) (t : list R) : option (list R) :=
  commit (t ++ [r]).

Definition update (P : R → Prop) `{!∀ r, Decision (P r)} (f : R → R)
    (t : list R) : option (list R) :=
  commit ((λ r, if decide (P r) then f r else r) <$> t).

Definition delete (P : R → Prop) `{!∀ r, Decision (P r)} (t : list R) : list R :=
  filter (λ r, ¬ P r) t.

(** The tables a sequence of statements can produce. *)
Inductive reachable : list R → Prop :=
  | reach_empty : reachable []
  | reach_insert r t t' :
      reachable t → insert r t = Some t' → reachable t'
  | reach_update (P : R → Prop) `{!∀ r, Decision (P r)} f t t' :
      reachable t → update P f t = Some t' → reachable t'
  | reach_delete (P : R → Prop) `{!∀ r, Decision (P r)} t :
      reachable t → reachable (delete P t).
End Table.
End Table.

(** ** Numbers bound to a D1 statement

    The D1 driver ([drizzle-orm/d1], client.ts) hands the parameters of a
    statement to the database as JSON.  [NaN], [Infinity] and [-Infinity]
    have no JSON form and arrive as [NULL]; [-0] arrives as [0]; every other
    number arrives as it is.  [bind x] is the number that reaches the
    column, [None] standing for [NULL]. *)

Definition bind (x : number) : option number :=
  match x with
  | S754_zero _ => Some (S754_zero false)
  | S754_finite _ _ _ => Some x
  | S754_nan | S754_infinity _ => None
  end.

(** ** schema.ts: enum value lists

    SQLite has no enums: the lists only feed TypeScript types, the columns
    themselves are [text]. *)

Definition inboxStatusValues : list string :=
  ["processing"; "pending"; "archived"; "new"; "analyzing";
   "suggested_match"; "no_match"; "done"; "deleted"].

Definition invoiceStatusValues : list string :=
  ["draft"; "overdue"; "paid"; "unpaid"; "canceled"; "scheduled"].

Definition transactionStatusValues : list string :=
  ["posted"; "pending"; "excluded"; "completed"; "archived"].

(** [export type InboxStatus = typeof inboxStatusValues[number]] *)
Module InboxStatus.
Inductive t :=
  | processing
  | pending
  | archived
  | new
  | analyzing
  | suggested_match
  | no_match
  | done
  | deleted.

#[global] Instance eq_dec : EqDecision t.
Proof. solve_decision. Defined.

Definition values : list t :=
  [processing; pending; archived; new; analyzing;
   suggested_match; no_match; done; deleted].

Definition text (s : t) : string :=
  match s with
  | processing => "processing"
  | pending => "pending"
  | archived => "archived"
  | new => "new"
  | analyzing => "analyzing"
  | suggested_match => "suggested_match"
  | no_match => "no_match"
  | done => "done"
  | deleted => "deleted"
  end.

(** Reading a status column back into the type. *)
Definition parse (s : string) : option t :=
  snd <$> list_find (λ v, text v = s) values.
End InboxStatus.

(** [export type InvoiceStatus = typeof invoiceStatusValues[number]] *)
Module InvoiceStatus.
Inductive t :=
  | draft
  | overdue
  | paid
  | unpaid
  | canceled
  | scheduled.

Definition values : list t :=
  [draft; overdue; paid; unpaid; canceled; scheduled].

Definition text (s : t) : string :=
  match s with
  | draft => "draft"
  | overdue => "overdue"
  | paid => "paid"
  | unpaid => "unpaid"
  | canceled => "canceled"
  | scheduled => "scheduled"
  end.
End InvoiceStatus.

(** ** schema.ts: column kinds of [drizzle-orm/sqlite-core] *)

Inductive ColumnKind :=
  | text
  | integer
  | real
  | blob.

Record Column := {
  columnName : string;
  columnKind : ColumnKind;
  notNull : bool
}.

(** ** schema.ts: tables *)

Module teams.
Record row := {
  id : string;
  name : string;
  logoUrl : option string;
  inboxId : option string;
  emailLanguage : option string;
  inboxEmail : option string;
  inboxForwarding : option bool;
  baseUrl : option string;
  plan : string;
  countryCode : option string;
  canceledAt : option Z;
  createdAt : Z;
  documentClassification : option bool;
  revalidate : option Z;
  webVerification : option string;
  webVerified : option bool;
  invoiceSequence : option Z
}.

(** [integer("invoice_sequence").default(1)] *)
Definition invoiceSequence_default : Z := 1.

Definition primaryKey : row → string := id.
(** [teams_inbox_id_key] *)
Definition uniqueIndexes : list (row → option string) := [inboxId].

Definition Consistent := Table.Consistent primaryKey uniqueIndexes.
Definition update (P : row → Prop) `{!∀ r, Decision (P r)} (f : row → row)
    (t : list row) : option (list row) :=
  Table.update primaryKey uniqueIndexes P f t.

Definition with_invoiceSequence (n : option Z) (t : row) : row :=
  {| id := id t; name := name t; logoUrl := logoUrl t; inboxId := inboxId t;
     emailLanguage := emailLanguage t; inboxEmail := inboxEmail t;
     inboxForwarding := inboxForwarding t; baseUrl := baseUrl t;
     plan := plan t; countryCode := countryCode t; canceledAt := canceledAt t;
     createdAt := createdAt t;
     documentClassification := documentClassification t;
     revalidate := revalidate t; webVerification := webVerification t;
     webVerified := webVerified t; invoiceSequence := n |}.
End teams.

Module transactions.
Record row := {
  id : string;
  createdAt : Z;
  date : string;
  name : string;
  method : string;
  amount : number;
  currency : string;
  teamId : string;
  assignedId : option string;
  note : option string;
  bankAccountId : option string;
  internalId : string;
  status : option string;
  balance : option number;
  manual : option bool;
  notified : option bool;
  internal : option bool;
  description : option string;
  categorySlug : option string;
  baseAmount : option number;
  counterpartyName : option string;
  baseCurrency : option string;
  taxAmount : option number;
  taxRate : option number;
  taxType : option string;
  recurring : option bool;
  frequency : option string;
  merchantName : option string;
  enrichmentCompleted : option bool
}.


Definition primaryKey : row → string := id.
(** [transactions_internal_id_key], on [internal_id] alone. *)
Definition uniqueIndexes : list (row → option string) :=
  [λ r, Some (internalId r)].

Definition Consistent := Table.Consistent primaryKey uniqueIndexes.

(** The row as the table holds it once its values are bound: [amount] is
    [real(...).notNull()] (schema.ts:237), so a value that arrives as [NULL]
    fails the statement; [balance], [base_amount], [tax_amount] and
    [tax_rate] are [real] columns that accept [NULL]. *)
Definition stored (r : row) : option row :=
  a ← bind (amount r);
  Some {| id := id r; createdAt := createdAt r; date := date r;
          name := name r; method := method r; amount := a;
          currency := currency r; teamId := teamId r;
          assignedId := assignedId r; note := note r;
          bankAccountId := bankAccountId r; internalId := internalId r;
          status := status r; balance := balance r ≫= bind;
          manual := manual r; notified := notified r;
          internal := internal r; description := description r;
          categorySlug := categorySlug r;
          baseAmount := baseAmount r ≫= bind;
          counterpartyName := counterpartyName r;
          baseCurrency := baseCurrency r;
          taxAmount := taxAmount r ≫= bind; taxRate := taxRate r ≫= bind;
          taxType := taxType r; recurring := recurring r;
          frequency := frequency r; merchantName := merchantName r;
          enrichmentCompleted := enrichmentCompleted r |}.

(** [db.insert(transactions).values(r)] *)
Definition insert (r : row) (t : list row) : option (list row) :=
  r' ← stored r; Table.insert primaryKey uniqueIndexes r' t.

(** [db.update(transactions).set(f).where(P)]: one statement, so one row
    that cannot be written fails the update of all of them. *)
Definition update (P : row → Prop) `{!∀ r, Decision (P r)} (f : row → row)
    (t : list row) : option (list row) :=
  t' ← mapM (λ r, if decide (P r) then stored (f r) else Some r) t;
  Table.commit primaryKey uniqueIndexes t'.

(** [db.delete(transactions).where(P)] *)
Definition delete (P : row → Prop) `{!∀ r, Decision (P r)} (t : list row)
    : list row :=
  Table.delete P t.

(** The tables a sequence of statements can produce. *)
Inductive reachable : list row → Prop :=
  | reach_empty : reachable []
  | reach_insert r t t' :
      reachable t → insert r t = Some t' → reachable t'
  | reach_update (P : row → Prop) `{!∀ r, Decision (P r)} f t t' :
      reachable t → update P f t = Some t' → reachable t'
  | reach_delete (P : row → Prop) `{!∀ r, Decision (P r)} t :
      reachable t → reachable (delete P t).

(** The row as a relation hands it back: the [real] columns pass through
    [render]. *)
Definition rendered (render : number → number) (r : row) : row :=
  {| id := id r; createdAt := createdAt r; date := date r;
     name := name r; method := method r; amount := render (amount r);
     currency := currency r; teamId := teamId r;
     assignedId := assignedId r; note := note r;
     bankAccountId := bankAccountId r; internalId := internalId r;
     status := status r; balance := render <$> balance r;
     manual := manual r; notified := notified r;
     internal := internal r; description := description r;
     categorySlug := categorySlug r;
     baseAmount := render <$> baseAmount r;
     counterpartyName := counterpartyName r;
     baseCurrency := baseCurrency r;
     taxAmount := render <$> taxAmount r; taxRate := render <$> taxRate r;
     taxType := taxType r; recurring := recurring r;
     frequency := frequency r; merchantName := merchantName r;
     enrichmentCompleted := enrichmentCompleted r |}.

(** The row written by an insert that gives the required columns and the
    two money columns of the base currency: [$defaultFn] supplies [id]
    and [created_at], [.default(...)] the status and the flags. *)
Definition create (generatedId : string) (now : Z)
    (date name method : string) (amount : number) (currency teamId : string)
    (bankAccountId : option string) (internalId : string)
    (baseAmount : option number) (baseCurrency : option string) : row :=
  {| id := generatedId; createdAt := now; date := date; name := name;
     method := method; amount := amount; currency := currency;
     teamId := teamId; assignedId := None; note := None;
     bankAccountId := bankAccountId; internalId := internalId;
     status := Some "posted"; balance := None; manual := Some false;
     notified := Some false; internal := Some false; description := None;
     categorySlug := None; baseAmount := baseAmount;
     counterpartyName := None; baseCurrency := baseCurrency;
     taxAmount := None; taxRate := None; taxType := None;
     recurring := None; frequency := None; merchantName := None;
     enrichmentCompleted := Some false |}.
End transactions.

Module transactionMatchSuggestions.
Record row := {
  id : string;
  transactionId : string;
  inboxId : string;
  score : number;
  createdAt : Z
}.

Definition primaryKey : row → string := id.
(** Both indexes of the table are plain, not unique. *)
Definition uniqueIndexes : list (row → option string) := [].

Definition Consistent := Table.Consistent primaryKey uniqueIndexes.
Definition commit := Table.commit primaryKey uniqueIndexes.

(** The row as the table holds it once its values are bound: [score] is
    [real(...).notNull()] (schema.ts:326). *)
Definition stored (r : row) : option row :=
  s ← bind (score r);
  Some {| id := id r; transactionId := transactionId r;
          inboxId := inboxId r; score := s; createdAt := createdAt r |}.

(** [db.insert(transactionMatchSuggestions).values(r)] *)
Definition insert (r : row) (t : list row) : option (list row) :=
  r' ← stored r; Table.insert primaryKey uniqueIndexes r' t.
End transactionMatchSuggestions.

Module invoices.
Record row := {
  id : string;
  createdAt : Z;
  updatedAt : option Z;
  teamId : string;
  customerId : option string;
  invoiceNumber : string;
  status : option string;
  template : option string;
  currency : option string;
  amount : option number;
  vat : option number;
  tax : option number;
  dueDate : option string;
  issueDate : string;
  paid : option bool;
  paidAt : option Z;
  noteDetails : option string;
  fromDetails : option string;
  customerDetails : option string;
  paymentDetails : option string;
  token : option string;
  deliveryType : option string;
  scheduleDate : option Z;
  reminderSent : option bool;
  viewedAt : option Z;
  internalNote : option string;
  lineItems : option string;
  discountAmount : option number;
  taxAmount : option number;
  topAmount : option number;
  bottomAmount : option number;
  subtotal : option number;
  invoiceUrl : option string
}.

(** [text("status").default("draft")] *)
Definition statusColumn : Column :=
  {| columnName := "status"; columnKind := text; notNull := false |}.
Definition status_default : string := "draft".

Definition primaryKey : row → string := id.
(** [invoices_invoice_number_key] on [invoice_number] alone, and
    [invoices_token_key]. *)
Definition uniqueIndexes : list (row → option string) :=
  [λ r, Some (invoiceNumber r); token].

Definition Consistent := Table.Consistent primaryKey uniqueIndexes.
Definition insert := Table.insert primaryKey uniqueIndexes.
Definition reachable := Table.reachable primaryKey uniqueIndexes.

(** The row written by an insert that gives the required columns and,
    possibly, a status ([None]: the key is left out and the default
    applies; [Some v]: the value [v], which may be [NULL]).  [$defaultFn]
    supplies [id], [created_at] and [token]. *)
Definition create (generatedId : string) (now : Z) (generatedToken : string)
    (teamId invoiceNumber issueDate : string)
    (givenStatus : option (option string)) : row :=
  {| id := generatedId; createdAt := now; updatedAt := None;
     teamId := teamId; customerId := None; invoiceNumber := invoiceNumber;
     status := default (Some status_default) givenStatus;
     template := Some "a4"; currency := None; amount := None; vat := None;
     tax := None; dueDate := None; issueDate := issueDate;
     paid := Some false; paidAt := None; noteDetails := None;
     fromDetails := None; customerDetails := None; paymentDetails := None;
     token := Some generatedToken; deliveryType := Some "create";
     scheduleDate := None; reminderSent := Some false; viewedAt := None;
     internalNote := None; lineItems := None; discountAmount := None;
     taxAmount := None; topAmount := None; bottomAmount := None;
     subtotal := None; invoiceUrl := None |}.
End invoices.

Module inbox.
Record row := {
  id : string;
  createdAt : Z;
  teamId : string;
  status : option string;
  type : option string;
  amount : option number;
  currency : option string;
  date : option string;
  name : option string;
  website : option string;
  description : option string;
  attachments : option string;
  metadata : option string;
  inboxAccountId : option string;
  referenceId : option string;
  forwardedTo : option string;
  transactionId : option string;
  readAt : option Z;
  displayName : option string;
  contentType : option string;
  size : option Z
}.

(** [text("status").default("pending")] *)
Definition status_default : string := "pending".

Definition primaryKey : row → string := id.
(** [inbox_reference_id_key] *)
Definition uniqueIndexes : list (row → option string) := [referenceId].

Definition Consistent := Table.Consistent primaryKey uniqueIndexes.
Definition insert := Table.insert primaryKey uniqueIndexes.
Definition update (P : row → Prop) `{!∀ r, Decision (P r)} (f : row → row)
    (t : list row) : option (list row) :=
  Table.update primaryKey uniqueIndexes P f t.

(** The row written by an insert that gives the team, the reference and
    the extracted amount, currency, date and attachments, and possibly a
    status; [transaction_id] is not given and stays [NULL]. *)
Definition create (generatedId : string) (now : Z) (teamId : string)
    (givenStatus : option (option string)) (referenceId : option string)
    (amount : option number) (currency date attachments : option string) : row :=
  {| id := generatedId; createdAt := now; teamId := teamId;
     status := default (Some status_default) givenStatus; type := None;
     amount := amount; currency := currency; date := date; name := None;
     website := None; description := None; attachments := attachments;
     metadata := None; inboxAccountId := None; referenceId := referenceId;
     forwardedTo := None; transactionId := None; readAt := None;
     displayName := None; contentType := None; size := None |}.

(** [UPDATE inbox SET status = ?, transaction_id = ?] on one row. *)
Definition with_status_transaction (st : option string)
    (tx : option string) (r : row) : row :=
  {| id := id r; createdAt := createdAt r; teamId := teamId r;
     status := st; type := type r; amount := amount r;
     currency := currency r; date := date r; name := name r;
     website := website r; description := description r;
     attachments := attachments r; metadata := metadata r;
     inboxAccountId := inboxAccountId r; referenceId := referenceId r;
     forwardedTo := forwardedTo r; transactionId := tx; readAt := readAt r;
     displayName := displayName r; contentType := contentType r;
     size := size r |}.

(** [UPDATE inbox SET amount = ?, currency = ?, date = ?, attachments = ?]
    on one row. *)
Definition with_payload (amount' : option number)
    (currency' date' attachments' : option string) (r : row) : row :=
  {| id := id r; createdAt := createdAt r; teamId := teamId r;
     status := status r; type := type r; amount := amount';
     currency := currency'; date := date'; name := name r;
     website := website r; description := description r;
     attachments := attachments'; metadata := metadata r;
     inboxAccountId := inboxAccountId r; referenceId := referenceId r;
     forwardedTo := forwardedTo r; transactionId := transactionId r;
     readAt := readAt r; displayName := displayName r;
     contentType := contentType r; size := size r |}.
End inbox.

(** ** Ledger ingestion (design §4.1) *)

Module Ledger.
(** Modelled from the spec: the record the bank-sync collaborator passes
    to [ingestTransaction] (§6); no source file declares it. *)
Record ExternalRecord := {
  internal_id : string;
  date : string;
  name : string;
  amount : number;
  currency : string;
  method : string;
  bank_account_id : string
}.

(** Modelled from the spec: the two results of the contract
    [ingestTransaction(teamId, externalRecord) -> {created | unchanged}]. *)
Inductive IngestResult :=
  | created
  | unchanged.

Definition sameKey (teamId internal_id : string) (r : transactions.row) : Prop :=
  transactions.teamId r = teamId ∧ transactions.internalId r = internal_id.

#[global] Instance sameKey_dec teamId internal_id r :
  Decision (sameKey teamId internal_id r).
Proof. unfold sameKey. apply _. Defined.

(** Modelled from the spec: the diff-merge of [ingestTransaction], which is
    not among the source files.  The fields of the external record
    overwrite the stored ones; the user-set fields (category, note,
    assignment) and every other column are kept. *)
Definition merge (rec : ExternalRecord) (r : transactions.row) : transactions.row :=
  {| transactions.id := transactions.id r;
     transactions.createdAt := transactions.createdAt r;
     transactions.date := date rec;
     transactions.name := name rec;
     transactions.method := method rec;
     transactions.amount := amount rec;
     transactions.currency := currency rec;
     transactions.teamId := transactions.teamId r;
     transactions.assignedId := transactions.assignedId r;
     transactions.note := transactions.note r;
     transactions.bankAccountId := Some (bank_account_id rec);
     transactions.internalId := transactions.internalId r;
     transactions.status := transactions.status r;
     transactions.balance := transactions.balance r;
     transactions.manual := transactions.manual r;
     transactions.notified := transactions.notified r;
     transactions.internal := transactions.internal r;
     transactions.description := transactions.description r;
     transactions.categorySlug := transactions.categorySlug r;
     transactions.baseAmount := transactions.baseAmount r;
     transactions.counterpartyName := transactions.counterpartyName r;
     transactions.baseCurrency := transactions.baseCurrency r;
     transactions.taxAmount := transactions.taxAmount r;
     transactions.taxRate := transactions.taxRate r;
     transactions.taxType := transactions.taxType r;
     transactions.recurring := transactions.recurring r;
     transactions.frequency := transactions.frequency r;
     transactions.merchantName := transactions.merchantName r;
     transactions.enrichmentCompleted := transactions.enrichmentCompleted r |}.

Section Ledger.
(** The base currency of a team and the exchange-rate provider
    [convert(amount, fromCcy, toCcy, asOf)] (§6); [None] is a failed or
    timed-out call. *)
Variable baseCurrencyOf : string → string.
Variable convert : number → string → string → Z → option number.

(** Modelled from the spec: [ingestTransaction(teamId, externalRecord)],
    which is not among the source files.  The input is validated before
    any write; the idempotency key is [(team_id, internal_id)]; a known
    key is merged, a new one is inserted into the [transactions] table of
    the schema with its base amount.  The identifier generator and the
    clock are passed in. *)
Definition ingestTransaction (generatedId : string) (now : Z)
    (teamId : string) (rec : ExternalRecord) (s : list transactions.row)
    : Result IngestResult * list transactions.row :=
  if negb (isSupportedCurrency (currency rec)) || negb (isFinite (amount rec))
  then (Fail ValidationError, s)
  else
    match list_find (sameKey teamId (internal_id rec)) s with
    | Some _ =>
        match transactions.update (sameKey teamId (internal_id rec)) (merge rec) s with
        | Some s' => (Ok unchanged, s')
        | None => (Fail ConflictError, s)
        end
    | None =>
        match convert (amount rec) (currency rec) (baseCurrencyOf teamId) now with
        | None => (Fail DependencyError, s)
        | Some base =>
            match transactions.insert
                    (transactions.create generatedId now (date rec) (name rec)
                       (method rec) (amount rec) (currency rec) teamId
                       (Some (bank_account_id rec)) (internal_id rec)
                       (Some base) (Some (baseCurrencyOf teamId))) s with
            | Some s' => (Ok created, s')
            | None => (Fail ConflictError, s)
            end
        end
    end.

(** The stored rows of one idempotency key. *)
Definition rowsOf (teamId internal_id : string) (s : list transactions.row)
    : list transactions.row :=
  filter (sameKey teamId internal_id) s.
End Ledger.
End Ledger.

(** ** Inbox state machine (design §4.2) *)

Module InboxEngine.
Import InboxStatus.

(** Modelled from the spec: an item ends in [done] or [deleted] (§3,
    lifecycles); no source file says which states are terminal. *)
Definition terminal (s : t) : bool :=
  match s with
  | done | deleted => true
  | _ => false
  end.

(** Modelled from the spec: the graph of §4.2, which no source file
    encodes.  [new → processing → analyzing → {suggested_match | no_match}
    → {done | archived}]; [pending] enters the chain where [new] does;
    auto-confirm goes from [analyzing] straight to [done]; dismissal
    archives any state but [done] and [deleted]; [deleted] is reachable
    from every state that is not terminal. *)
Definition edge (a b : t) : bool :=
  match a, b with
  | (new | pending), processing => true
  | processing, analyzing => true
  | analyzing, (suggested_match | no_match | done) => true
  | (suggested_match | no_match), done => true
  | _, (archived | deleted) => negb (terminal a)
  | _, _ => false
  end.

(** Modelled from the spec: what an analysis concludes (§4.2): the best
    candidate exceeds [T_auto], or some candidate exceeds [T_review], or
    none does.  The thresholds are configuration, so the outcome is an
    input of the state machine. *)
Inductive AnalysisOutcome :=
  | AutoConfirm (transactionId : string)
  | NeedsReview
  | NoMatch.

(** Modelled from the spec: the events the transition rules of §4.2 react
    to. *)
Inductive InboxEvent :=
  | Accept
  | Extracted
  | Analyzed (outcome : AnalysisOutcome)
  | Confirm (transactionId : string)
  | Dismiss
  | Delete.

(** Modelled from the spec: the transition rules of §4.2, which no source
    file implements.  The result is the next status and the transaction
    the item gets linked to, if the rule links one. *)
Definition next (s : t) (ev : InboxEvent) : option (t * option string) :=
  match ev, s with
  | Accept, (new | pending) => Some (processing, None)
  | Extracted, processing => Some (analyzing, None)
  | Analyzed (AutoConfirm tx), analyzing => Some (done, Some tx)
  | Analyzed NeedsReview, analyzing => Some (suggested_match, None)
  | Analyzed NoMatch, analyzing => Some (no_match, None)
  | Confirm tx, suggested_match => Some (done, Some tx)
  | Dismiss, _ => if terminal s then None else Some (archived, None)
  | Delete, _ => if terminal s then None else Some (deleted, None)
  | _, _ => None
  end.

(** Modelled from the spec: one transition of a stored item.  A status
    text outside the closed set is a [ValidationError], a transition the
    rules do not allow a [ConflictError] (§7). *)
Definition step (ev : InboxEvent) (item : inbox.row) : Result inbox.row :=
  match inbox.status item ≫= parse with
  | None => Fail ValidationError
  | Some s =>
      match next s ev with
      | None => Fail ConflictError
      | Some (s', link) =>
          Ok (inbox.with_status_transaction (Some (text s'))
                (match link with
                 | Some tx => Some tx
                 | None => inbox.transactionId item
                 end) item)
      end
  end.

(** Modelled from the spec: a rejected event leaves the item as it is
    (§7: a failure is scoped to one operation). *)
Definition stepOrKeep (item : inbox.row) (ev : InboxEvent) : inbox.row :=
  match step ev item with
  | Ok item' => item'
  | Fail _ => item
  end.

Definition run (evs : list InboxEvent) (item : inbox.row) : inbox.row :=
  foldl stepOrKeep item evs.

(** Modelled from the spec: the payload of the ingestion collaborator
    (§6); no source file declares it. *)
Record Payload := {
  amount : option number;
  currency : option string;
  date : option string;
  attachments : option string
}.

Definition sameReference (teamId reference_id : string) (r : inbox.row) : Prop :=
  inbox.teamId r = teamId ∧ inbox.referenceId r = Some reference_id.

#[global] Instance sameReference_dec teamId reference_id r :
  Decision (sameReference teamId reference_id r).
Proof. unfold sameReference. apply _. Defined.

Definition hasId (itemId : string) (r : inbox.row) : Prop := inbox.id r = itemId.

#[global] Instance hasId_dec itemId r : Decision (hasId itemId r).
Proof. unfold hasId. apply _. Defined.

(** Modelled from the spec: the operations of the core on the [inbox]
    table (§4.2, §6). *)
Inductive Operation :=
  | IngestInboxItem (generatedId : string) (now : Z) (teamId reference_id : string)
      (payload : Payload)
  | UploadInboxItem (generatedId : string) (now : Z) (teamId : string)
      (payload : Payload)
  | Transition (itemId : string) (ev : InboxEvent).

(** Modelled from the spec: [ingestInboxItem(teamId, reference_id,
    payload)], the manual upload and the transition of a stored item,
    none of which is among the source files.  Ingestion is an upsert on
    [(team_id, reference_id)]: a known reference takes the new payload and
    keeps its status and its link, a new one is created in [new]; an
    upload leaves the status out, so the column default [pending] applies;
    both insert into the [inbox] table of the schema.  A failed operation
    leaves the table as it was. *)
Definition apply (s : list inbox.row) (op : Operation) : list inbox.row :=
  match op with
  | IngestInboxItem generatedId now teamId reference_id payload =>
      match list_find (sameReference teamId reference_id) s with
      | Some _ =>
          default s
            (inbox.update (sameReference teamId reference_id)
               (inbox.with_payload (amount payload) (currency payload)
                  (date payload) (attachments payload)) s)
      | None =>
          default s
            (inbox.insert
               (inbox.create generatedId now teamId (Some (Some (text new)))
                  (Some reference_id) (amount payload) (currency payload)
                  (date payload) (attachments payload)) s)
      end
  | UploadInboxItem generatedId now teamId payload =>
      default s
        (inbox.insert
           (inbox.create generatedId now teamId None None (amount payload)
              (currency payload) (date payload) (attachments payload)) s)
  | Transition itemId ev =>
      default s (inbox.update (hasId itemId) (λ r, stepOrKeep r ev) s)
  end.

Definition runOperations (ops : list Operation) : list inbox.row :=
  foldl apply [] ops.

(** The invariant of §3 on an inbox item: [transaction_id] is set only
    when the status is [done]. *)
Definition linkedOnlyWhenDone (r : inbox.row) : Prop :=
  is_Some (inbox.transactionId r) → inbox.status r = Some (text done).

(** What one operation may do to a stored item: the row keeps its [id],
    and its status stays as it is or moves along an edge of the graph. *)
Definition moved (r r' : inbox.row) : Prop :=
  inbox.id r' = inbox.id r
  ∧ (inbox.status r' = inbox.status r
     ∨ ∃ a b, inbox.status r = Some (text a) ∧ inbox.status r' = Some (text b)
              ∧ edge a b = true).

(** The two states in which an item enters the table. *)
Definition entered (r : inbox.row) : Prop :=
  inbox.status r = Some (text new) ∨ inbox.status r = Some (text pending).
End InboxEngine.

(** ** Match suggestions (design §4.2) *)

Module Reconciliation.
Import transactionMatchSuggestions.

Definition content (r : row) : string * string * number :=
  (transactionId r, inboxId r, score r).



(** Modelled from the spec: the states in which an analysis may commit
    its suggestions (§4.2, §5). *)
Definition analyzable (item : inbox.row) : bool :=
  match inbox.status item ≫= InboxStatus.parse with
  | Some (InboxStatus.analyzing | InboxStatus.suggested_match
         | InboxStatus.no_match) => true
  | _ => false
  end.

Section Reconciliation.
(** The similarity provider [score(inboxItem, candidateTransaction)] (§6),
    [None] for a call that timed out; the matching window; the review
    threshold.  All three are configuration. *)
Variable similarity : inbox.row → transactions.row → option number.
Variable inWindow : inbox.row → transactions.row → bool.
Variable T_review : number.

(** Modelled from the spec: the candidates of an item with their scores
    (§4.2): the transactions in the matching window that the provider
    scored. *)
Definition scored (item : inbox.row) (txs : list transactions.row)
    : list (transactions.row * number) :=
  omap (λ tx, (λ s, (tx, s)) <$> similarity item tx)
       (filter (λ tx, inWindow item tx = true) txs).

(** Modelled from the spec: the candidates whose score exceeds
    [T_review] (§4.2). *)
Definition reviewable (item : inbox.row) (txs : list transactions.row)
    : list (transactions.row * number) :=
  filter (λ p, lt T_review p.2 = true) (scored item txs).

(** Modelled from the spec: one suggestion row per reviewable candidate,
    with identifiers from the injected generator (§9). *)
Definition suggestionsFor (generatedIds : nat → string) (now : Z)
    (item : inbox.row) (txs : list transactions.row) : list row :=
  imap (λ k p, {| id := generatedIds k;
                  transactionId := transactions.id p.1;
                  inboxId := inbox.id item;
                  score := p.2;
                  createdAt := now |})
       (reviewable item txs).

(** Modelled from the spec: the analysis of one inbox item, which is not
    among the source files.  The job commits only for an item that is
    being analyzed or, on a re-run, is in [suggested_match] or [no_match];
    for an item in any other state it stops without a trace (§5).  The
    suggestions are recomputed from scratch over the candidate transactions
    and replace the rows the item had; candidates the provider did not
    score, and scores that do not exceed [T_review], give no row.  The rows
    are written to the [transactionMatchSuggestions] table of the schema in
    one statement: each score is bound to the [score] column, which is
    [NOT NULL], and the table keeps its primary key; a statement the table
    refuses changes nothing. *)
Definition analyze (generatedIds : nat → string) (now : Z)
    (item : inbox.row) (txs : list transactions.row) (rows : list row)
    : Result (list row) :=
  if analyzable item then
    match new ← mapM stored (suggestionsFor generatedIds now item txs);
          commit (filter (λ r, inboxId r ≠ inbox.id item) rows ++ new) with
    | Some rows' => Ok rows'
    | None => Fail ConflictError
    end
  else Ok rows.

(** Modelled from the spec: accepting the suggestion for [transactionId]
    invalidates the other suggestions of the inbox item; the table has no
    status column, so an invalidated row is a deleted row. *)
Definition confirmSuggestion (itemId transactionId' : string)
    (rows : list row) : list row :=
  filter (λ r, inboxId r = itemId → transactionId r = transactionId') rows.

(** The suggestion tables the engine can produce; the candidates are
    read from a [transactions] table that satisfies its constraints. *)
Inductive reachable : list row → Prop :=
  | reach_empty : reachable []
  | reach_analyze generatedIds now item txs rows rows' :
      reachable rows → transactions.Consistent txs →
      analyze generatedIds now item txs rows = Ok rows' → reachable rows'
  | reach_confirm itemId tx rows :
      reachable rows → reachable (confirmSuggestion itemId tx rows).
End Reconciliation.
End Reconciliation.

(** ** Invoice numbering (design §4.3) *)

Module InvoiceNumbers.
Definition isTeam (teamId : string) (t : teams.row) : Prop := teams.id t = teamId.

#[global] Instance isTeam_dec teamId t : Decision (isTeam teamId t).
Proof. unfold isTeam. apply _. Defined.

(** Modelled from the spec: the counter of a team as the allocation reads
    it; a [NULL] reads as the column default of the schema. *)
Definition current (t : teams.row) : Z :=
  default teams.invoiceSequence_default (teams.invoiceSequence t).

(** Modelled from the spec: the allocation of an invoice number, which is
    not among the source files.  It reads [teams.invoice_sequence] and
    increments it in one step. *)
Definition allocateInvoiceNumber (teamId : string) (ts : list teams.row)
    : Result Z * list teams.row :=
  match list_find (isTeam teamId) ts with
  | None => (Fail NotFoundError, ts)
  | Some (_, t) =>
      match teams.update (isTeam teamId)
              (λ t, teams.with_invoiceSequence (Some (current t + 1)) t) ts with
      | Some ts' => (Ok (current t), ts')
      | None => (Fail ConflictError, ts)
      end
  end.

(** The row of a team after an allocation for [teamId]. *)
Definition bump (teamId : string) (t : teams.row) : teams.row :=
  if decide (isTeam teamId t)
  then teams.with_invoiceSequence (Some (current t + 1)) t
  else t.

(** The number the next allocation for [teamId] hands out, if the team
    exists. *)
Definition counter (teamId : string) (ts : list teams.row) : option Z :=
  (λ p, current p.2) <$> list_find (isTeam teamId) ts.

(** Modelled from the spec: a series of allocation requests, each naming
    its team, served one after the other as §5 requires; the result lists
    the numbers handed out. *)
Fixpoint allocateAll (requests : list string) (ts : list teams.row)
    : list (string * Z) * list teams.row :=
  match requests with
  | [] => ([], ts)
  | teamId :: rest =>
      let '(res, ts') := allocateInvoiceNumber teamId ts in
      let '(out, ts'') := allocateAll rest ts' in
      (match res with
       | Ok n => (teamId, n) :: out
       | Fail _ => out
       end, ts'')
  end.
End InvoiceNumbers.

(** ** The invoice lifecycle of the design (§4.3)

    The states named by the graph [draft → {scheduled | sent} →
    {paid | overdue | canceled}], written down as the design has them, to
    be compared with [invoiceStatusValues]. *)
Definition lifecycleInvoiceStates : list string :=
  ["draft"; "scheduled"; "sent"; "paid"; "overdue"; "canceled"].

(** ** Sample data

    A bank record of 100.00 USD dated 2024-01-10, a record in a currency
    the package does not list, two teams and one invoice, as the tests of
    the design use them. *)

Module Examples.
Definition bankRecord : Ledger.ExternalRecord :=
  {| Ledger.internal_id := "bank-tx-1";
     Ledger.date := "2024-01-10";
     Ledger.name := "Office rent";
     Ledger.amount := of_decimal 10000 2;
     Ledger.currency := "USD";
     Ledger.method := "transfer";
     Ledger.bank_account_id := "account-1" |}.

Definition foreignRecord : Ledger.ExternalRecord :=
  {| Ledger.internal_id := "bank-tx-2";
     Ledger.date := "2024-01-10";
     Ledger.name := "Lunch";
     Ledger.amount := of_decimal 1250 2;
     Ledger.currency := "XXX";
     Ledger.method := "card_purchase";
     Ledger.bank_account_id := "account-1" |}.

Definition baseCurrencyOf (teamId : string) : string := "USD".

(** A provider that knows only the rate of a currency to itself. *)
Definition convert (amount : number) (fromCcy toCcy : string) (asOf : Z)
    : option number :=
  if decide (fromCcy = toCcy) then Some amount else None.

Definition team (teamId : string) (sequence : option Z) : teams.row :=
  {| teams.id := teamId; teams.name := "Acme"; teams.logoUrl := None;
     teams.inboxId := None; teams.emailLanguage := Some "en";
     teams.inboxEmail := None; teams.inboxForwarding := Some false;
     teams.baseUrl := None; teams.plan := "trial"; teams.countryCode := None;
     teams.canceledAt := None; teams.createdAt := 1704844800000;
     teams.documentClassification := Some false; teams.revalidate := None;
     teams.webVerification := None; teams.webVerified := None;
     teams.invoiceSequence := sequence |}.

Definition twoTeams : list teams.row :=
  [team "team-1" (Some 7); team "team-2" None].

Definition invoice : invoices.row :=
  invoices.create "inv-1" 1704844800000 "tok-1" "team-1" "INV-0007"
    "2024-01-10" None.

Definition receipt : InboxEngine.Payload :=
  {| InboxEngine.amount := Some (of_decimal 10000 2);
     InboxEngine.currency := Some "USD";
     InboxEngine.date := Some "2024-01-11";
     InboxEngine.attachments := None |}.

Definition transaction : transactions.row :=
  transactions.create "tx-row-1" 1704844800000 "2024-01-10" "Office rent"
    "transfer" (of_decimal 10000 2) "USD" "team-1" (Some "account-1")
    "bank-tx-1" (Some (of_decimal 10000 2)) (Some "USD").

Definition inboxItem : inbox.row :=
  inbox.create "item-1" 1704931200000 "team-1" (Some (Some "analyzing"))
    (Some "mail-1") (Some (of_decimal 10000 2)) (Some "USD")
    (Some "2024-01-11") None.

(** A provider that scores every pair of equal currency 0.7, a window
    that takes every transaction of the item's team, and the review
    threshold 0.5. *)
Definition similarity (item : inbox.row) (tx : transactions.row)
    : option number :=
  if decide (inbox.currency item = Some (transactions.currency tx))
  then Some (of_decimal 7 1)
  else None.

Definition inWindow (item : inbox.row) (tx : transactions.row) : bool :=
  bool_decide (inbox.teamId item = transactions.teamId tx).

Definition T_review : number := of_decimal 5 1.

Definition suggestion (generatedId : string) (now : Z)
    : transactionMatchSuggestions.row :=
  {| transactionMatchSuggestions.id := generatedId;
     transactionMatchSuggestions.transactionId := "tx-row-1";
     transactionMatchSuggestions.inboxId := "item-1";
     transactionMatchSuggestions.score := of_decimal 7 1;
     transactionMatchSuggestions.createdAt := now |}.

End Examples.

(** ** More of the package

    The parts of the source files that the properties above do not touch:
    the sign of a number, the remaining enum value lists whose members are
    column defaults, the [transactionCategories] table with its two-column
    primary key, the [relations] of the schema, the default of
    [trackerEntries.date] and [getConnectionPoolStats] of [client.ts]. *)

(** [-x] on numbers. *)
Definition negate : number → number := SFopp.

(** A binary64 value: a finite number is one only with its mantissa in
    canonical form and its exponent in range. *)
Definition isBinary64 (x : number) : Prop := valid_binary prec emax x = true.

(** The key of a new row under a unique index is not taken by a row of
    the table; a [NULL] key is never taken. *)
Definition fresh {R : Type} (ix : R → option string) (r : R) (t : list R) : Prop :=
  ∀ k, ix r = Some k → k ∉ omap ix t.

Definition invoiceDeliveryTypeValues : list string :=
  ["create"; "create_and_send"; "scheduled"].

Definition invoiceSizeValues : list string := ["a4"; "letter"].

Module transactionCategories.
Record row := {
  slug : string;
  name : string;
  color : option string;
  description : option string;
  teamId : string;
  system : bool;
  createdAt : Z;
  vat : option number
}.

(** [primaryKey({ columns: [table.teamId, table.slug] })] *)
Definition primaryKey (r : row) : string * string := (teamId r, slug r).

Definition Consistent (t : list row) : Prop := NoDup (primaryKey <$> t).

#[global] Instance Consistent_dec (t : list row) : Decision (Consistent t).
Proof. unfold Consistent. apply _. Defined.

Definition insert (r : row) (t : list row) : option (list row) :=
  if decide (Consistent (t ++ [r])) then Some (t ++ [r]) else None.

(** The row as a relation hands it back: [vat] is the one [real] column
    (schema.ts:279). *)
Definition rendered (render : number → number) (r : row) : row :=
  {| slug := slug r; name := name r; color := color r;
     description := description r; teamId := teamId r; system := system r;
     createdAt := createdAt r; vat := render <$> vat r |}.
End transactionCategories.

(** *** Relations

    [one(target, { fields, references })] resolves, for a row of the source
    table, to the row of the target table whose [references] columns equal
    the [fields] columns of the source row, and to nothing when a field is
    [NULL] or no row matches.  [many(target)] is the other direction of a
    [one]: the rows of the target table whose [fields] equal the
    [references] of the given row.

    On SQLite the relational query builder fetches the related rows inside
    one statement, as [json_array(...)] values collected by
    [json_group_array]: a related row is read back from JSON text, in which
    a [real] is written with 15 significant digits.  [render x] is the
    number read back for a stored [x]; it belongs to the database, not to
    the package, and is passed in.  Text, integer and boolean columns come
    back as they are stored. *)

Module Relations.
Section Relations.
Context {Source Target Key : Type} `{EqDecision Key}.
(** The target row with its [real] columns rendered. *)
Variable rendered : Target → Target.

Definition one (fields : Source → option Key) (references : Target → Key)
    (r : Source) (t : list Target) : option Target :=
  fields r ≫= λ k, (λ p, rendered p.2) <$> list_find (λ x, references x = k) t.

Definition many (fields : Target → option Key) (references : Source → Key)
    (r : Source) (t : list Target) : list Target :=
  rendered <$> filter (λ x, fields x = Some (references r)) t.
End Relations.
End Relations.

Module transactionsRelations.
(** [team: one(teams, { fields: [transactions.teamId], references:
    [teams.id] })]; [teams] has no [real] column. *)
Definition team : transactions.row → list teams.row → option teams.row :=
  Relations.one (λ team, team) (λ tx, Some (transactions.teamId tx)) teams.id.

(** [category: one(transactionCategories, { fields:
    [transactions.categorySlug, transactions.teamId], references:
    [transactionCategories.slug, transactionCategories.teamId] })] *)
Definition category (render : number → number)
    : transactions.row → list transactionCategories.row
      → option transactionCategories.row :=
  Relations.one (transactionCategories.rendered render)
    (λ tx, (λ slug, (slug, transactions.teamId tx)) <$> transactions.categorySlug tx)
    (λ c, (transactionCategories.slug c, transactionCategories.teamId c)).
End transactionsRelations.

Module teamsRelations.
(** [transactions: many(transactions)], through [transactionsRelations.team]. *)
Definition transactions (render : number → number)
    : teams.row → list transactions.row → list transactions.row :=
  Relations.many (transactions.rendered render)
    (λ tx, Some (transactions.teamId tx)) teams.id.
End teamsRelations.

Module inboxRelations.
(** [transaction: one(transactions, { fields: [inbox.transactionId],
    references: [transactions.id] })] *)
Definition transaction (render : number → number)
    : inbox.row → list transactions.row → option transactions.row :=
  Relations.one (transactions.rendered render) inbox.transactionId transactions.id.
End inboxRelations.

(** *** The default of [trackerEntries.date]

    [new Date().toISOString().split('T')[0]]: the text of the clock in ISO
    form is passed in. *)

Module trackerEntries.
(** [s.split(separator)] for a separator of one character. *)
Fixpoint split (separator : Ascii.ascii) (s : string) : list string :=
  match s with
  | EmptyString => [EmptyString]
  | String c rest =>
      if Ascii.eqb c separator then EmptyString :: split separator rest
      else
        match split separator rest with
        | [] => [String c EmptyString]
        | piece :: pieces => String c piece :: pieces
        end
  end.

(** [array[0]], [undefined] for an empty array. *)
Definition date_default (iso : string) : option string :=
  head (split "T"%char iso).

(** [c] occurs in [s]. *)
Fixpoint contains (c : Ascii.ascii) (s : string) : bool :=
  match s with
  | EmptyString => false
  | String c' rest => Ascii.eqb c' c || contains c rest
  end.
End trackerEntries.

(** *** client.ts *)

Module client.
Record Summary := {
  totalConnections : number;
  totalActive : number;
  totalWaiting : number;
  hasExhaustedPools : bool;
  utilizationPercent : number
}.

Record ConnectionPoolStats := {
  timestamp : string;
  region : string;
  instance : string;
  pools : list (string * Summary);
  summary : Summary;
  message : string
}.

(** [a || b] for an environment variable [a], which is a string or
    [undefined]: the empty string is as falsy as [undefined]. *)
Definition orElse (a : option string) (b : string) : string :=
  match a with
  | Some v => if decide (v = "") then b else v
  | None => b
  end.

(** [process.env] is passed in, and so is [new Date().toISOString()]. *)
Definition getConnectionPoolStats (env : string → option string) (iso : string)
    : ConnectionPoolStats :=
  {| timestamp := iso;
     region := orElse (env "FLY_REGION") "unknown";
     instance := orElse (env "FLY_ALLOC_ID") "local";
     pools := [];
     summary := {| totalConnections := of_Z 0;
                   totalActive := of_Z 0;
                   totalWaiting := of_Z 0;
                   hasExhaustedPools := false;
                   utilizationPercent := of_Z 0 |};
     message := "D1 connection pooling is managed by Cloudflare Workers runtime" |}.
End client.

(** *** More sample data *)

Module Fixtures.
Definition category (teamId slug : string) : transactionCategories.row :=
  {| transactionCategories.slug := slug;
     transactionCategories.name := "Rent";
     transactionCategories.color := None;
     transactionCategories.description := None;
     transactionCategories.teamId := teamId;
     transactionCategories.system := false;
     transactionCategories.createdAt := 1704844800000;
     transactionCategories.vat := None |}.

(** The sample transaction, categorised as rent. *)
Definition categorised : transactions.row :=
    {| transactions.id := "tx-row-1"; transactions.createdAt := 1704844800000;
       transactions.date := "2024-01-10"; transactions.name := "Office rent";
       transactions.method := "transfer";
       transactions.amount := of_decimal 10000 2;
       transactions.currency := "USD"; transactions.teamId := "team-1";
       transactions.assignedId := None; transactions.note := None;
       transactions.bankAccountId := Some "account-1";
       transactions.internalId := "bank-tx-1";
       transactions.status := Some "posted"; transactions.balance := None;
       transactions.manual := Some false; transactions.notified := Some false;
       transactions.internal := Some false; transactions.description := None;
       transactions.categorySlug := Some "rent"; transactions.baseAmount := None;
       transactions.counterpartyName := None; transactions.baseCurrency := None;
       transactions.taxAmount := None; transactions.taxRate := None;
       transactions.taxType := None; transactions.recurring := None;
       transactions.frequency := None; transactions.merchantName := None;
       transactions.enrichmentCompleted := Some false |}.

Definition matchedItem : inbox.row :=
  inbox.with_status_transaction (Some "done") (Some "tx-row-1") Examples.inboxItem.

(** The sample transaction with the amount [0.1 + 0.2]. *)
Definition summed : transactions.row :=
  transactions.create "tx-row-1" 1704844800000 "2024-01-10" "Office rent"
    "transfer" (add (of_decimal 1 1) (of_decimal 2 1)) "USD" "team-1"
    (Some "account-1") "bank-tx-1" None None.

(** A rendering that gives the sum [0.1 + 0.2] back as [0.3], as fifteen
    significant digits do, and every other number as it is. *)
Definition render (x : number) : number :=
  if strictEquals x (add (of_decimal 1 1) (of_decimal 2 1))
  then of_decimal 3 1 else x.

Definition env (variable : string) : option string :=
  if decide (variable = "FLY_REGION") then Some "fra"
  else if decide (variable = "FLY_ALLOC_ID") then Some ""
  else None.
End Fixtures.

(** * Properties *)

(** ** Currencies *)

(** C10: [isSupportedCurrency c] is [true] exactly when [c] is one of the
    ten codes USD, EUR, GBP, JPY, AUD, CAD, CHF, CNY, SEK, NZD; the
    comparison is case-sensitive, so the lowercase ["usd"] gives [false]. *)
Theorem isSupportedCurrency_exactly_the_ten_codes :
  (∀ c : string,
      isSupportedCurrency c = true ↔
      c = "USD" ∨ c = "EUR" ∨ c = "GBP" ∨ c = "JPY" ∨ c = "AUD" ∨
      c = "CAD" ∨ c = "CHF" ∨ c = "CNY" ∨ c = "SEK" ∨ c = "NZD")
  ∧ isSupportedCurrency "usd" = false.
Proof.
  split; [|reflexivity].
  intros c. unfold isSupportedCurrency, currencies.
  rewrite bool_decide_eq_true, !elem_of_cons, elem_of_nil.
  tauto.
Qed.

Lemma isSupportedCurrency_exactly_the_ten_codes_witness :
  isSupportedCurrency "EUR" = true.
Proof.
  apply (proj2 (proj1 isSupportedCurrency_exactly_the_ten_codes "EUR")).
  right. left. reflexivity.
Defined.

(** ** Tax *)

Lemma calculateTax_unfold amount rate :
  calculateTax amount rate = mul amount (div rate (of_Z 100)).
Proof. reflexivity. Qed.

Lemma zero_rate_tax_is_zero s m e :
  calculateTax (S754_finite s m e) (of_Z 0) = S754_zero s.
Proof. destruct s; reflexivity. Qed.

(** C9, as stated, fails on binary64 numbers: for amount [100] and rate
    [10] the sum [100 + 100 * (10 / 100)] is [110] while the product
    [100 * (1 + 10 / 100)] is the next number above [110]; and at rate [0]
    the amount [Infinity] gives [NaN], not [Infinity]. *)
Lemma calculateAmountWithTax_is_not_the_product :
  let amount := of_Z 100 in
  let rate := of_Z 10 in
  calculateAmountWithTax amount rate
    ≠ mul amount (add (of_Z 1) (div rate (of_Z 100)))
  ∧ strictEquals (calculateAmountWithTax amount rate)
      (mul amount (add (of_Z 1) (div rate (of_Z 100)))) = false
  ∧ calculateAmountWithTax amount rate = of_Z 110
  ∧ calculateAmountWithTax Infinity (of_Z 0) = NaN
  ∧ calculateAmountWithTax Infinity (of_Z 0) ≠ Infinity.
Proof.
  cbv zeta. repeat split; try (vm_compute; reflexivity); vm_compute; discriminate.
Qed.

(** C9, amended: [calculateAmountWithTax amount rate] is
    [amount + calculateTax amount rate], with [calculateTax amount rate]
    the product [amount * (rate / 100)], each operation rounded to
    binary64; and for every finite [amount] a rate of [0] gives back
    [amount]. *)
Theorem calculateAmountWithTax_sum_and_zero_rate :
  (∀ amount rate,
      calculateAmountWithTax amount rate = add amount (calculateTax amount rate)
      ∧ calculateTax amount rate = mul amount (div rate (of_Z 100)))
  ∧ (∀ amount, isFinite amount = true →
      calculateAmountWithTax amount (of_Z 0) = amount).
Proof.
  split; [intros; split; reflexivity|].
  intros [s|s| |s m e] Hfin; try discriminate.
  - destruct s; reflexivity.
  - unfold calculateAmountWithTax. rewrite zero_rate_tax_is_zero. reflexivity.
Qed.

Lemma calculateAmountWithTax_sum_and_zero_rate_witness :
  isFinite (of_decimal 1999 2) = true
  ∧ calculateAmountWithTax (of_decimal 1999 2) (of_Z 0) = of_decimal 1999 2.
Proof.
  split; [reflexivity|].
  apply (proj2 calculateAmountWithTax_sum_and_zero_rate). reflexivity.
Defined.

(** ** Invoice status *)

(** C3, as stated, fails: [unpaid] is one of the code's invoice status
    values, an invoice row carrying it is accepted by the table, and it is
    not a state of the design's lifecycle graph; the graph's [sent] in turn
    is not one of the code's values. *)
Lemma invoice_status_unpaid_is_stored :
  let r := invoices.create "inv-1" 1704844800000 "tok-1" "team-1" "INV-0001"
             "2024-01-10" (Some (Some (InvoiceStatus.text InvoiceStatus.unpaid))) in
  invoices.insert r [] = Some [r]
  ∧ invoices.status r = Some "unpaid"
  ∧ ("unpaid" ∈ invoiceStatusValues)
  ∧ ("unpaid" ∉ lifecycleInvoiceStates)
  ∧ ("sent" ∉ invoiceStatusValues).
Proof.
  cbv zeta. split; [vm_compute; reflexivity|].
  split; [reflexivity|].
  split; [apply (bool_decide_eq_true_1 _); reflexivity|].
  split; apply (bool_decide_eq_false_1 _); reflexivity.
Qed.

(** C3, amended: the invoice status values the code names are exactly
    draft, overdue, paid, unpaid, canceled and scheduled (the type
    [InvoiceStatus]); the column itself is a [text] column that may be
    [NULL], takes [draft] when an insert leaves it out and stores whatever
    text or [NULL] an insert gives. *)
Theorem invoice_status_values_and_column :
  (∀ s : string,
      s ∈ invoiceStatusValues ↔
      s = "draft" ∨ s = "overdue" ∨ s = "paid" ∨ s = "unpaid" ∨
      s = "canceled" ∨ s = "scheduled")
  ∧ InvoiceStatus.text <$> InvoiceStatus.values = invoiceStatusValues
  ∧ (∀ v : InvoiceStatus.t, v ∈ InvoiceStatus.values)
  ∧ columnKind invoices.statusColumn = text
  ∧ notNull invoices.statusColumn = false
  ∧ (∀ generatedId now token teamId invoiceNumber issueDate,
        invoices.status
          (invoices.create generatedId now token teamId invoiceNumber
             issueDate None) = Some "draft")
  ∧ (∀ generatedId now token teamId invoiceNumber issueDate (v : option string),
        let r := invoices.create generatedId now token teamId invoiceNumber
                   issueDate (Some v) in
        invoices.insert r [] = Some [r] ∧ invoices.status r = v).
Proof.
  split.
  { intros s. unfold invoiceStatusValues.
    rewrite !elem_of_cons, elem_of_nil. tauto. }
  split; [reflexivity|].
  split.
  { intros v. unfold InvoiceStatus.values. rewrite !elem_of_cons.
    destruct v; tauto. }
  do 2 (split; [reflexivity|]).
  split; [reflexivity|].
  intros. subst r. split; [|reflexivity].
  unfold invoices.insert, Table.insert, Table.commit.
  rewrite decide_True; [reflexivity|].
  split.
  - apply NoDup_singleton.
  - unfold invoices.uniqueIndexes.
    constructor; [apply NoDup_singleton|].
    constructor; [apply NoDup_singleton|]. constructor.
Qed.

Lemma invoice_status_values_and_column_witness :
  "scheduled" ∈ invoiceStatusValues.
Proof.
  apply (proj2 (proj1 invoice_status_values_and_column "scheduled")).
  do 5 right. reflexivity.
Defined.

(** ** Stored amounts *)






(** ** Tables keep their keys unique *)

Section TableFacts.
Context {R : Type}.
Variable primaryKey : R → string.
Variable uniqueIndexes : list (R → option string).

Local Abbreviation Consistent := (Table.Consistent primaryKey uniqueIndexes).
Local Abbreviation commit := (Table.commit primaryKey uniqueIndexes).

Lemma omap_sublist {A B} (f : A → option B) (l1 l2 : list A) :
  l1 `sublist_of` l2 → omap f l1 `sublist_of` omap f l2.
Proof.
  induction 1 as [|x l1 l2 _ IH|x l1 l2 _ IH]; simpl.
  - constructor.
  - destruct (f x); [constructor|]; exact IH.
  - destruct (f x); [apply sublist_cons|]; exact IH.
Qed.

(** Two positions whose rows carry the same key under a duplicate-free
    index are one position. *)
Lemma NoDup_omap_lookup {A B} (f : A → option B) (l : list A) :
  NoDup (omap f l) →
  ∀ (i j : nat) x y k,
    l !! i = Some x → l !! j = Some y → f x = Some k → f y = Some k → i = j.
Proof.
  induction l as [|a l IH]; intros Hnd i j x y k Hi Hj Hx Hy.
  - discriminate.
  - assert (Hclash : ∀ z, f a = Some k → z ∈ l → f z = Some k → False).
    { intros z Ha Hz Hfz. simpl in Hnd. rewrite Ha in Hnd.
      apply NoDup_cons_1_1 in Hnd. apply Hnd.
      apply list_elem_of_omap. eauto. }
    destruct i as [|i], j as [|j]; simpl in Hi, Hj.
    + reflexivity.
    + injection Hi as ->. exfalso.
      eapply Hclash; eauto using list_elem_of_lookup_2.
    + injection Hj as ->. exfalso.
      eapply Hclash; eauto using list_elem_of_lookup_2.
    + f_equal. eapply IH; eauto.
      simpl in Hnd. destruct (f a); [eapply NoDup_cons_1_2|]; exact Hnd.
Qed.

Lemma Consistent_nil : Consistent [].
Proof.
  split; [constructor|].
  apply list.Forall_forall. intros ix _. constructor.
Qed.

Lemma Consistent_sublist (t1 t2 : list R) :
  t1 `sublist_of` t2 → Consistent t2 → Consistent t1.
Proof.
  intros Hsub [Hpk Hix]. split.
  - eapply sublist_NoDup; [exact Hpk|]. apply fmap_sublist, Hsub.
  - rewrite list.Forall_forall in Hix. apply list.Forall_forall. intros ix Hin.
    eapply sublist_NoDup; [apply Hix, Hin|]. apply omap_sublist, Hsub.
Qed.

Lemma commit_Some (t t' : list R) :
  commit t = Some t' → t' = t ∧ Consistent t.
Proof.
  unfold Table.commit. case_decide; [|discriminate].
  intros [= <-]. split; [reflexivity|assumption].
Qed.

Lemma commit_Consistent (t : list R) : Consistent t → commit t = Some t.
Proof. intros H. unfold Table.commit. rewrite decide_True; done. Qed.

Lemma reachable_Consistent (t : list R) :
  Table.reachable primaryKey uniqueIndexes t → Consistent t.
Proof.
  induction 1 as [|r t t' _ _ Hins|P HP f t t' _ _ Hupd|P HP t _ IH].
  - apply Consistent_nil.
  - apply commit_Some in Hins as [-> H]. exact H.
  - apply commit_Some in Hupd as [-> H]. exact H.
  - eapply Consistent_sublist; [|exact IH]. apply sublist_filter.
Qed.

Lemma Consistent_primaryKey (t : list R) (i j : nat) (x y : R) :
  Consistent t → t !! i = Some x → t !! j = Some y →
  primaryKey x = primaryKey y → i = j.
Proof.
  intros [Hpk _] Hi Hj Heq. rewrite list_fmap_alt in Hpk.
  eapply NoDup_omap_lookup; [exact Hpk|exact Hi|exact Hj|simpl..].
  - reflexivity.
  - simpl. f_equal. symmetry. exact Heq.
Qed.

Lemma Consistent_unique (t : list R) (ix : R → option string)
    (i j : nat) (x y : R) (k : string) :
  Consistent t → ix ∈ uniqueIndexes → t !! i = Some x → t !! j = Some y →
  ix x = Some k → ix y = Some k → i = j.
Proof.
  intros [_ Hix] Hin Hi Hj Hx Hy.
  rewrite list.Forall_forall in Hix.
  eapply NoDup_omap_lookup; [apply Hix, Hin|exact Hi|exact Hj|exact Hx|exact Hy].
Qed.

(** An update that leaves the primary key and the indexed columns of
    every row as they are cannot fail. *)
Lemma update_same_keys (P : R → Prop) `{!∀ r, Decision (P r)} (f : R → R)
    (t : list R) :
  Consistent t →
  (∀ r, primaryKey (f r) = primaryKey r) →
  (∀ ix r, ix ∈ uniqueIndexes → ix (f r) = ix r) →
  Table.update primaryKey uniqueIndexes P f t
    = Some ((λ r, if decide (P r) then f r else r) <$> t).
Proof.
  intros [Hpk Hix] Hfpk Hfix. apply commit_Consistent. split.
  - rewrite <- list_fmap_compose.
    erewrite list_fmap_ext; [exact Hpk|].
    intros _ r _. simpl. case_decide; [apply Hfpk|reflexivity].
  - rewrite list.Forall_forall in Hix. apply list.Forall_forall. intros ix Hin.
    specialize (Hix ix Hin). cbv beta.
    assert (Hsame : omap ix ((λ r, if decide (P r) then f r else r) <$> t)
                    = omap ix t).
    { clear Hix Hpk. induction t as [|a t IH]; [reflexivity|].
      csimpl. rewrite IH.
      case_decide; [rewrite Hfix by exact Hin|]; reflexivity. }
    rewrite Hsame. exact Hix.
Qed.
End TableFacts.

(** [Table.insert] succeeds exactly when the keys of the new row are free. *)
Section InsertFacts.
Context {R : Type}.
Variable primaryKey : R → string.
Variable uniqueIndexes : list (R → option string).

Local Abbreviation Consistent := (Table.Consistent primaryKey uniqueIndexes).
Local Abbreviation insert := (Table.insert primaryKey uniqueIndexes).

Lemma NoDup_omap_snoc (ix : R → option string) (r : R) (t : list R) :
  NoDup (omap ix (t ++ [r])) ↔ NoDup (omap ix t) ∧ fresh ix r t.
Proof.
  rewrite omap_app. unfold fresh. simpl. destruct (ix r) as [k|].
  - rewrite NoDup_app. split.
    + intros (Hnd & Hdisj & _). split; [exact Hnd|].
      intros k' [= <-] Hin. apply (Hdisj k Hin). left.
    + intros (Hnd & Hfresh). split; [exact Hnd|]. split; [|apply NoDup_singleton].
      intros x Hx Hk. apply list_elem_of_singleton in Hk. subst x.
      exact (Hfresh k eq_refl Hx).
  - rewrite app_nil_r. split; [intros H; split; [exact H|discriminate]|tauto].
Qed.

Lemma Consistent_snoc (r : R) (t : list R) :
  Consistent (t ++ [r])
  ↔ Consistent t
    ∧ (primaryKey r ∉ primaryKey <$> t)
    ∧ Forall (λ ix, fresh ix r t) uniqueIndexes.
Proof.
  unfold Table.Consistent. rewrite fmap_app, NoDup_app. simpl.
  rewrite !list.Forall_forall. split.
  - intros ((Hpk & Hdisj & _) & Hix). split; [split|split].
    + exact Hpk.
    + intros ix Hin. apply (NoDup_omap_snoc ix r t), Hix, Hin.
    + intros Hin. apply (Hdisj _ Hin). left.
    + intros ix Hin. apply (NoDup_omap_snoc ix r t), Hix, Hin.
  - intros ((Hpk & Hix) & Hfresh & Hfreshix). split.
    + split; [exact Hpk|]. split; [|apply NoDup_singleton].
      intros x Hx Hk. apply list_elem_of_singleton in Hk. subst x.
      exact (Hfresh Hx).
    + intros ix Hin. apply NoDup_omap_snoc. split; [apply Hix, Hin|apply Hfreshix, Hin].
Qed.

Lemma insert_result (r : R) (t : list R) :
  insert r t = Some (t ++ [r]) ∨ insert r t = None.
Proof. unfold Table.insert, Table.commit. case_decide; auto. Qed.



Lemma fresh_required (f : R → string) (r : R) (t : list R) :
  fresh (λ x, Some (f x)) r t ↔ f r ∉ f <$> t.
Proof.
  unfold fresh. rewrite (list_fmap_alt f t). split.
  - intros H. apply H. reflexivity.
  - intros H k [= <-]. exact H.
Qed.
End InsertFacts.

(** ** What reaches a [real] column *)

Section StorageFacts.


Lemma bind_is_Some (x : number) : is_Some (bind x) ↔ isFinite x = true.
Proof.
  destruct x; simpl; split; intros H; eauto; try discriminate;
    destruct H; discriminate.
Qed.

Lemma bind_finite (x y : number) : bind x = Some y → isFinite y = true.
Proof. destruct x; simpl; intros [= <-]; reflexivity. Qed.

Lemma bind_idem (x y : number) : bind x = Some y → bind y = Some y.
Proof. destruct x; simpl; intros [= <-]; reflexivity. Qed.

Lemma bind_bind (x : option number) : (x ≫= bind) ≫= bind = x ≫= bind.
Proof.
  destruct x as [x|]; [|reflexivity]. simpl.
  destruct (bind x) as [y|] eqn:H; [|reflexivity]. simpl.
  eapply bind_idem, H.
Qed.

Lemma strictEquals_finite (x : number) :
  isFinite x = true → strictEquals x x = true.
Proof.
  destruct x as [s|s| |s m e]; try discriminate; intros _; [reflexivity|].
  unfold strictEquals, SFeqb, SFcompare.
  destruct s; rewrite Z.compare_refl, ?Pos.compare_refl; simpl;
    rewrite ?Pos.compare_refl; reflexivity.
Qed.

(** The number that reaches the column equals, as a number, the one that
    was given, and is never [-0]. *)
Lemma bind_strictEquals (x y : number) :
  bind x = Some y → strictEquals y x = true ∧ y ≠ S754_zero true.
Proof.
  destruct x as [s|s| |s m e]; simpl; intros [= <-]; split; try discriminate.
  - destruct s; reflexivity.
  - apply strictEquals_finite. reflexivity.
Qed.

Lemma stored_is_Some (r : transactions.row) :
  is_Some (transactions.stored r) ↔ isFinite (transactions.amount r) = true.
Proof.
  rewrite <- bind_is_Some. unfold transactions.stored.
  destruct (bind (transactions.amount r)); simpl; split; intros [? H]; eauto;
    discriminate.
Qed.


Lemma stored_keys (r r' : transactions.row) :
  transactions.stored r = Some r' →
  transactions.id r' = transactions.id r
  ∧ transactions.internalId r' = transactions.internalId r
  ∧ transactions.teamId r' = transactions.teamId r.
Proof.
  unfold transactions.stored.
  destruct (bind (transactions.amount r)); simpl; [|discriminate].
  intros [= <-]. auto.
Qed.

Lemma stored_amount (r r' : transactions.row) :
  transactions.stored r = Some r' →
  bind (transactions.amount r) = Some (transactions.amount r').
Proof.
  unfold transactions.stored.
  destruct (bind (transactions.amount r)); simpl; [|discriminate].
  intros [= <-]. reflexivity.
Qed.

Lemma stored_idem (r r' : transactions.row) :
  transactions.stored r = Some r' → transactions.stored r' = Some r'.
Proof.
  unfold transactions.stored.
  destruct (bind (transactions.amount r)) as [a|] eqn:Ha; simpl; [|discriminate].
  intros [= <-]. simpl. rewrite (bind_idem _ _ Ha). simpl.
  rewrite !bind_bind. reflexivity.
Qed.

Lemma transactions_insert_Some (r : transactions.row) (t t' : list transactions.row) :
  transactions.insert r t = Some t'
  ↔ ∃ r', transactions.stored r = Some r' ∧ t' = (t ++ [r'])%list
          ∧ transactions.Consistent (t ++ [r']).
Proof.
  unfold transactions.insert, Table.insert.
  destruct (transactions.stored r) as [r'|]; simpl.
  - split.
    + intros [-> H]%commit_Some. eauto.
    + intros (? & [= <-] & -> & H). apply commit_Consistent, H.
  - split; [discriminate|]. intros (? & ? & _). discriminate.
Qed.

Lemma mapM_total {A B} (f : A → option B) (g : A → B) (l : list A) :
  (∀ x, x ∈ l → f x = Some (g x)) → mapM f l = Some (g <$> l).
Proof.
  intros H. apply mapM_Some, Forall2_fmap_r, Forall_Forall2_diag.
  apply list.Forall_forall. exact H.
Qed.

(** An update whose new rows can all be written is the update of the
    table with the rows as they are stored. *)
Lemma transactions_update_total (P : transactions.row → Prop)
    `{!∀ r, Decision (P r)} (f F : transactions.row → transactions.row)
    (t : list transactions.row) :
  (∀ r, r ∈ t → P r → transactions.stored (f r) = Some (F r)) →
  transactions.update P f t
    = Table.update transactions.primaryKey transactions.uniqueIndexes P F t.
Proof.
  intros Hst. unfold transactions.update, Table.update.
  rewrite (mapM_total _ (λ r, if decide (P r) then F r else r)); [reflexivity|].
  intros r Hr. case_decide; [apply Hst; assumption|reflexivity].
Qed.


Lemma transactions_update_Consistent (P : transactions.row → Prop)
    `{!∀ r, Decision (P r)} (f : transactions.row → transactions.row)
    (t t' : list transactions.row) :
  transactions.update P f t = Some t' → transactions.Consistent t'.
Proof.
  unfold transactions.update. destruct (mapM _ t) as [t0|]; simpl; [|discriminate].
  intros [-> Hc]%commit_Some. exact Hc.
Qed.

Lemma transactions_reachable_Consistent (t : list transactions.row) :
  transactions.reachable t → transactions.Consistent t.
Proof.
  induction 1 as [|r t t' _ _ Hins|P HP f t t' _ _ Hupd|P HP t _ IH].
  - apply Consistent_nil.
  - apply transactions_insert_Some in Hins as (r' & _ & -> & H). exact H.
  - eapply transactions_update_Consistent, Hupd.
  - eapply Consistent_sublist; [|exact IH]. apply sublist_filter.
Qed.

Lemma suggestion_stored_is_Some (r : transactionMatchSuggestions.row) :
  is_Some (transactionMatchSuggestions.stored r)
  ↔ isFinite (transactionMatchSuggestions.score r) = true.
Proof.
  rewrite <- bind_is_Some. unfold transactionMatchSuggestions.stored.
  destruct (bind (transactionMatchSuggestions.score r)); simpl; split;
    intros [? H]; eauto; discriminate.
Qed.

Lemma suggestion_stored_Some (r r' : transactionMatchSuggestions.row) :
  transactionMatchSuggestions.stored r = Some r' →
  transactionMatchSuggestions.id r' = transactionMatchSuggestions.id r
  ∧ transactionMatchSuggestions.transactionId r'
    = transactionMatchSuggestions.transactionId r
  ∧ transactionMatchSuggestions.inboxId r' = transactionMatchSuggestions.inboxId r
  ∧ transactionMatchSuggestions.createdAt r'
    = transactionMatchSuggestions.createdAt r
  ∧ bind (transactionMatchSuggestions.score r)
    = Some (transactionMatchSuggestions.score r').
Proof.
  unfold transactionMatchSuggestions.stored.
  destruct (bind (transactionMatchSuggestions.score r)); simpl; [|discriminate].
  intros [= <-]. auto.
Qed.
End StorageFacts.

(** ** Invoice numbers and tokens *)

Section InvoiceNumberFacts.
Import InvoiceNumbers.

Lemma isTeam_bump teamId other (t : teams.row) :
  isTeam other (bump teamId t) ↔ isTeam other t.
Proof. unfold bump, isTeam. case_decide; reflexivity. Qed.

Lemma allocateInvoiceNumber_spec teamId (ts : list teams.row) :
  teams.Consistent ts →
  allocateInvoiceNumber teamId ts
    = match counter teamId ts with
      | Some n => (Ok n, bump teamId <$> ts)
      | None => (Fail NotFoundError, ts)
      end.
Proof.
  intros Hc. unfold allocateInvoiceNumber, counter.
  destruct (list_find (isTeam teamId) ts) as [[i t]|]; [|reflexivity].
  unfold teams.update. rewrite update_same_keys; [reflexivity|exact Hc|..].
  - reflexivity.
  - intros ix r Hix. unfold teams.uniqueIndexes in Hix.
    apply list_elem_of_singleton in Hix as ->. reflexivity.
Qed.

Lemma bump_Consistent teamId (ts : list teams.row) :
  teams.Consistent ts → teams.Consistent (bump teamId <$> ts).
Proof.
  intros Hc.
  pose proof (update_same_keys teams.primaryKey teams.uniqueIndexes
                (isTeam teamId)
                (λ t, teams.with_invoiceSequence (Some (current t + 1)) t)
                ts Hc) as Hupd.
  apply commit_Some in Hupd as [_ H]; [exact H|reflexivity|].
  intros ix r Hix. unfold teams.uniqueIndexes in Hix.
  apply list_elem_of_singleton in Hix as ->. reflexivity.
Qed.

Lemma counter_bump teamId other (ts : list teams.row) :
  counter other (bump teamId <$> ts)
    = (λ n, if decide (other = teamId) then n + 1 else n) <$> counter other ts.
Proof.
  unfold counter. rewrite list_find_fmap.
  rewrite (list_find_ext (isTeam other ∘ bump teamId) (isTeam other))
    by (intros t; apply isTeam_bump).
  destruct (list_find (isTeam other) ts) as [[i t]|] eqn:Hfind; [|reflexivity].
  apply list_find_Some in Hfind as (_ & Ht & _).
  simpl. f_equal. unfold bump, isTeam in *.
  case_decide; case_decide; try congruence; reflexivity.
Qed.

Lemma allocateAll_lower_bound (requests : list string) :
  ∀ (ts : list teams.row) teamId n,
    teams.Consistent ts →
    (teamId, n) ∈ (allocateAll requests ts).1 →
    ∃ k, counter teamId ts = Some k ∧ k ≤ n.
Proof.
  induction requests as [|req rest IH]; intros ts teamId n Hc Hin.
  - simpl in Hin. apply elem_of_nil in Hin as [].
  - simpl in Hin. rewrite allocateInvoiceNumber_spec in Hin by exact Hc.
    destruct (counter req ts) as [k|] eqn:Hk.
    + destruct (allocateAll rest (bump req <$> ts)) as [out ts''] eqn:Hrest.
      simpl in Hin. apply elem_of_cons in Hin as [[= -> ->]|Hin].
      * exists k. split; [exact Hk|lia].
      * specialize (IH (bump req <$> ts) teamId n (bump_Consistent _ _ Hc)).
        rewrite Hrest in IH. destruct (IH Hin) as (k' & Hk' & Hle).
        rewrite counter_bump in Hk'.
        destruct (counter teamId ts) as [k0|]; [|discriminate].
        injection Hk' as <-. exists k0. split; [reflexivity|].
        case_decide; lia.
    + destruct (allocateAll rest ts) as [out ts''] eqn:Hrest.
      simpl in Hin. specialize (IH ts teamId n Hc).
      rewrite Hrest in IH. exact (IH Hin).
Qed.

Lemma allocateAll_NoDup (requests : list string) :
  ∀ ts : list teams.row,
    teams.Consistent ts → NoDup (allocateAll requests ts).1.
Proof.
  induction requests as [|req rest IH]; intros ts Hc.
  - constructor.
  - simpl. rewrite allocateInvoiceNumber_spec by exact Hc.
    destruct (counter req ts) as [k|] eqn:Hk.
    + pose proof (allocateAll_lower_bound rest (bump req <$> ts) req k
                    (bump_Consistent _ _ Hc)) as Hlow.
      specialize (IH (bump req <$> ts) (bump_Consistent _ _ Hc)).
      destruct (allocateAll rest (bump req <$> ts)) as [out ts''].
      simpl in *. constructor; [|exact IH].
      intros Hin. destruct (Hlow Hin) as (k' & Hk' & Hle).
      rewrite counter_bump, Hk in Hk'. simpl in Hk'.
      rewrite decide_True in Hk' by reflexivity.
      injection Hk' as <-. lia.
    + specialize (IH ts Hc).
      destruct (allocateAll rest ts) as [out ts'']. exact IH.
Qed.
End InvoiceNumberFacts.

(** C2: in every [invoices] table that inserts, updates and deletes can
    produce, two stored invoices of one team never carry the same
    [invoice_number] and two stored invoices never carry the same token;
    an allocation hands out the team's [invoice_sequence] and moves it up
    by one, leaving the other teams alone, so the numbers handed out over
    any series of requests never repeat within a team. *)
Theorem invoice_numbers_and_tokens_are_unique :
  (∀ s : list invoices.row, invoices.reachable s →
     ∀ (i j : nat) r1 r2, s !! i = Some r1 → s !! j = Some r2 →
       (invoices.teamId r1 = invoices.teamId r2 →
        invoices.invoiceNumber r1 = invoices.invoiceNumber r2 → i = j)
       ∧ (∀ k, invoices.token r1 = Some k → invoices.token r2 = Some k → i = j))
  ∧ (∀ (ts : list teams.row) teamId n ts',
       teams.Consistent ts →
       InvoiceNumbers.allocateInvoiceNumber teamId ts = (Ok n, ts') →
       InvoiceNumbers.counter teamId ts = Some n
       ∧ InvoiceNumbers.counter teamId ts' = Some (n + 1)
       ∧ (∀ other, other ≠ teamId →
            InvoiceNumbers.counter other ts' = InvoiceNumbers.counter other ts)
       ∧ teams.Consistent ts')
  ∧ (∀ (ts : list teams.row) requests,
       teams.Consistent ts → NoDup (InvoiceNumbers.allocateAll requests ts).1).
Proof.
  split; [|split].
  - intros s Hreach i j r1 r2 Hi Hj.
    apply reachable_Consistent in Hreach. split.
    + intros _ Hnum.
      eapply (Consistent_unique _ _ s (λ r, Some (invoices.invoiceNumber r)));
        [exact Hreach| |exact Hi|exact Hj|reflexivity|].
      * unfold invoices.uniqueIndexes. apply elem_of_cons. left. reflexivity.
      * simpl. f_equal. symmetry. exact Hnum.
    + intros k H1 H2.
      eapply (Consistent_unique _ _ s invoices.token);
        [exact Hreach| |exact Hi|exact Hj|exact H1|exact H2].
      unfold invoices.uniqueIndexes. apply elem_of_cons. right.
      apply elem_of_cons. left. reflexivity.
  - intros ts teamId n ts' Hc Halloc.
    rewrite allocateInvoiceNumber_spec in Halloc by exact Hc.
    destruct (InvoiceNumbers.counter teamId ts) as [k|] eqn:Hk; [|discriminate].
    injection Halloc as -> <-.
    split; [reflexivity|]. rewrite !counter_bump, Hk. simpl.
    split; [rewrite decide_True by reflexivity; reflexivity|].
    split; [|apply bump_Consistent, Hc].
    intros other Hne. rewrite counter_bump.
    destruct (InvoiceNumbers.counter other ts); [|reflexivity].
    simpl. rewrite decide_False by exact Hne. reflexivity.
  - intros ts requests Hc. apply allocateAll_NoDup, Hc.
Qed.

(** ** Ledger ingestion *)

Section LedgerFacts.
Import Ledger.

Lemma filter_none {A} (P : A → Prop) `{!∀ x, Decision (P x)} (l : list A) :
  Forall (λ x, ¬ P x) l → filter P l = [].
Proof.
  induction 1 as [|a l Ha _ IH]; [reflexivity|].
  rewrite filter_cons_False by exact Ha. exact IH.
Qed.

Lemma filter_at_most_one {A} (P : A → Prop) `{!∀ x, Decision (P x)} (l : list A) :
  (∀ (i j : nat) x y, l !! i = Some x → l !! j = Some y → P x → P y → i = j) →
  (length (filter P l) ≤ 1)%nat.
Proof.
  induction l as [|a l IH]; intros Huniq; [simpl; lia|].
  rewrite filter_cons. case_decide as Ha.
  - assert (Hnone : filter P l = []).
    { apply filter_none, list.Forall_forall. intros y Hy HPy.
      apply list_elem_of_lookup_1 in Hy as [j Hj].
      specialize (Huniq 0%nat (S j) a y eq_refl Hj Ha HPy). discriminate. }
    rewrite Hnone. simpl. lia.
  - apply IH. intros i j x y Hi Hj Hx Hy.
    specialize (Huniq (S i) (S j) x y Hi Hj Hx Hy). lia.
Qed.

Lemma list_find_Some_filter {A} (P : A → Prop) `{!∀ x, Decision (P x)}
    (l : list A) p :
  list_find P l = Some p → (1 ≤ length (filter P l))%nat.
Proof.
  destruct p as [i x]. intros (Hi & HP & _)%list_find_Some.
  assert (Hin : x ∈ filter P l).
  { apply list_elem_of_filter. split; [exact HP|].
    eapply list_elem_of_lookup_2, Hi. }
  destruct (filter P l); [apply elem_of_nil in Hin as []|simpl; lia].
Qed.

(** Rows with one [internal_id] sit at one position, whatever their
    teams. *)
Lemma internalId_unique (s : list transactions.row) :
  transactions.Consistent s →
  ∀ (i j : nat) x y, s !! i = Some x → s !! j = Some y →
    transactions.internalId x = transactions.internalId y → i = j.
Proof.
  intros Hc i j x y Hi Hj Hxy.
  eapply (Consistent_unique _ _ s (λ r, Some (transactions.internalId r))
            i j x y (transactions.internalId x));
    [exact Hc| |exact Hi|exact Hj|reflexivity|simpl; f_equal; symmetry; exact Hxy].
  unfold transactions.uniqueIndexes. apply list_elem_of_singleton. reflexivity.
Qed.

Lemma sameKey_unique (teamId internal_id : string) (s : list transactions.row) :
  transactions.Consistent s →
  ∀ (i j : nat) x y, s !! i = Some x → s !! j = Some y →
    sameKey teamId internal_id x → sameKey teamId internal_id y → i = j.
Proof.
  intros Hc i j x y Hi Hj [_ Hx] [_ Hy].
  eapply (internalId_unique s Hc i j x y Hi Hj). congruence.
Qed.

Lemma filter_fmap_length {A} (P : A → Prop) `{!∀ x, Decision (P x)}
    (g : A → A) (l : list A) :
  (∀ x, P (g x) ↔ P x) →
  length (filter P (g <$> l)) = length (filter P l).
Proof.
  intros Hg. induction l as [|a l IH]; [reflexivity|].
  csimpl. rewrite !filter_cons.
  pose proof (Hg a) as Ha.
  destruct (decide (P (g a))) as [H1|H1], (decide (P a)) as [H2|H2];
    simpl; rewrite ?IH; try reflexivity; tauto.
Qed.

(** The row that the merge of a record leaves in the table. *)
Local Abbreviation written rec r :=
  (default r (transactions.stored (merge rec r))).
Local Abbreviation mergeIf teamId rec :=
  (λ r, if decide (sameKey teamId (internal_id rec) r) then written rec r else r).

Lemma stored_merge rec (r : transactions.row) :
  isFinite (amount rec) = true →
  transactions.stored (merge rec r) = Some (written rec r).
Proof.
  intros Hfin.
  destruct (proj2 (stored_is_Some (merge rec r)) Hfin) as [r' Hr'].
  rewrite Hr'. reflexivity.
Qed.

Lemma stored_merge_idem rec (r r1 : transactions.row) :
  transactions.stored (merge rec r) = Some r1 →
  transactions.stored (merge rec r1) = Some r1.
Proof.
  unfold transactions.stored, merge. simpl.
  destruct (bind (amount rec)) as [a|]; simpl; [|discriminate].
  intros [= <-]. simpl. rewrite !bind_bind. reflexivity.
Qed.

Lemma stored_merge_created generatedId now teamId rec base baseCcy
    (r1 : transactions.row) :
  transactions.stored
    (transactions.create generatedId now (date rec) (name rec) (method rec)
       (amount rec) (currency rec) teamId (Some (bank_account_id rec))
       (internal_id rec) base baseCcy) = Some r1 →
  transactions.stored (merge rec r1) = Some r1.
Proof.
  unfold transactions.stored, transactions.create, merge. simpl.
  destruct (bind (amount rec)) as [a|]; simpl; [|discriminate].
  intros [= <-]. simpl. rewrite !bind_bind. reflexivity.
Qed.

Lemma written_keys rec (r : transactions.row) :
  transactions.id (written rec r) = transactions.id r
  ∧ transactions.internalId (written rec r) = transactions.internalId r
  ∧ transactions.teamId (written rec r) = transactions.teamId r.
Proof.
  destruct (transactions.stored (merge rec r)) as [r1|] eqn:Hr1; simpl; [|auto].
  apply stored_keys in Hr1. exact Hr1.
Qed.

Lemma written_idem rec (r : transactions.row) :
  written rec (written rec r) = written rec r.
Proof.
  destruct (transactions.stored (merge rec r)) as [r1|] eqn:Hr1; simpl.
  - rewrite (stored_merge_idem _ _ _ Hr1). reflexivity.
  - rewrite Hr1. reflexivity.
Qed.

Lemma mergeIf_sameKey teamId internal_id teamId' rec (r : transactions.row) :
  sameKey teamId internal_id (mergeIf teamId' rec r) ↔ sameKey teamId internal_id r.
Proof.
  cbv beta. case_decide; [|reflexivity]. unfold sameKey.
  destruct (written_keys rec r) as (_ & -> & ->). reflexivity.
Qed.

Lemma update_merge teamId rec (s : list transactions.row) :
  transactions.Consistent s →
  isFinite (amount rec) = true →
  transactions.update (sameKey teamId (internal_id rec)) (merge rec) s
    = Some (mergeIf teamId rec <$> s).
Proof.
  intros Hc Hfin.
  rewrite (transactions_update_total _ _ (λ r, written rec r))
    by (intros r _ _; apply stored_merge, Hfin).
  apply update_same_keys; [exact Hc|intros r; apply written_keys|].
  intros ix r Hix. unfold transactions.uniqueIndexes in Hix.
  apply list_elem_of_singleton in Hix as ->.
  f_equal. apply written_keys.
Qed.

Variable baseCurrencyOf baseCurrencyOf' : string → string.
Variable convert convert' : number → string → string → Z → option number.

(** What an accepted ingestion leaves behind: either the merged table or
    the table with the new row appended. *)
Lemma ingestTransaction_accepted generatedId now teamId rec
    (s : list transactions.row) res s1 :
  transactions.Consistent s →
  ingestTransaction baseCurrencyOf convert generatedId now teamId rec s = (Ok res, s1) →
  isSupportedCurrency (currency rec) = true ∧ isFinite (amount rec) = true
  ∧ transactions.Consistent s1
  ∧ ((res = unchanged
      ∧ is_Some (list_find (sameKey teamId (internal_id rec)) s)
      ∧ transactions.update (sameKey teamId (internal_id rec)) (merge rec) s
        = Some s1
      ∧ s1 = mergeIf teamId rec <$> s)
     ∨ (res = created
        ∧ list_find (sameKey teamId (internal_id rec)) s = None
        ∧ ∃ base row,
            transactions.insert
              (transactions.create generatedId now (date rec) (name rec)
                 (method rec) (amount rec) (currency rec) teamId
                 (Some (bank_account_id rec)) (internal_id rec)
                 (Some base) (Some (baseCurrencyOf teamId))) s = Some s1
            ∧ transactions.stored
                (transactions.create generatedId now (date rec) (name rec)
                   (method rec) (amount rec) (currency rec) teamId
                   (Some (bank_account_id rec)) (internal_id rec)
                   (Some base) (Some (baseCurrencyOf teamId))) = Some row
            ∧ s1 = (s ++ [row])%list)).
Proof.
  intros Hc. unfold ingestTransaction.
  destruct (isSupportedCurrency (currency rec)); [|discriminate].
  destruct (isFinite (amount rec)) eqn:Hfin; [|discriminate]. simpl.
  destruct (list_find (sameKey teamId (internal_id rec)) s) as [p|] eqn:Hfind.
  - pose proof (update_merge teamId rec s Hc Hfin) as Hupd.
    rewrite Hupd. intros [= <- <-].
    do 2 (split; [reflexivity|]). split.
    + eapply transactions_update_Consistent, Hupd.
    + left. eauto.
  - destruct (convert _ _ _ _) as [base|]; [|discriminate].
    destruct (transactions.insert _ s) as [s'|] eqn:Hins; [|discriminate].
    intros [= <- <-].
    pose proof Hins as (row & Hrow & -> & Hc')%transactions_insert_Some.
    do 2 (split; [reflexivity|]). split; [exact Hc'|].
    right. split; [reflexivity|]. split; [reflexivity|]. eauto.
Qed.

(** A valid record whose key is stored, in a table the merge does not
    change, is ingested without any effect. *)
Lemma ingestTransaction_known_key generatedId now teamId rec
    (s : list transactions.row) :
  isSupportedCurrency (currency rec) = true →
  isFinite (amount rec) = true →
  transactions.Consistent s →
  is_Some (list_find (sameKey teamId (internal_id rec)) s) →
  mergeIf teamId rec <$> s = s →
  ingestTransaction baseCurrencyOf convert generatedId now teamId rec s
    = (Ok unchanged, s).
Proof.
  intros Hcur Hfin Hc [p Hfind] Hfix. unfold ingestTransaction.
  rewrite Hcur, Hfin, Hfind. simpl.
  rewrite update_merge by assumption. rewrite Hfix. reflexivity.
Qed.

(** A valid record whose key is stored is merged into its row. *)
Lemma ingestTransaction_merges generatedId now teamId rec
    (s : list transactions.row) :
  isSupportedCurrency (currency rec) = true →
  isFinite (amount rec) = true →
  transactions.Consistent s →
  is_Some (list_find (sameKey teamId (internal_id rec)) s) →
  ingestTransaction baseCurrencyOf convert generatedId now teamId rec s
    = (Ok unchanged, mergeIf teamId rec <$> s).
Proof.
  intros Hcur Hfin Hc [p Hfind]. unfold ingestTransaction.
  rewrite Hcur, Hfin, Hfind. simpl.
  rewrite update_merge by assumption. reflexivity.
Qed.

Lemma merged_table_is_fixed teamId rec (s : list transactions.row) :
  is_Some (list_find (sameKey teamId (internal_id rec)) s) →
  is_Some (list_find (sameKey teamId (internal_id rec)) (mergeIf teamId rec <$> s))
  ∧ mergeIf teamId rec <$> (mergeIf teamId rec <$> s) = mergeIf teamId rec <$> s.
Proof.
  intros [p Hfind]. split.
  - rewrite list_find_fmap.
    rewrite (list_find_ext _ (sameKey teamId (internal_id rec)))
      by (intros r; apply mergeIf_sameKey).
    rewrite Hfind. simpl. eauto.
  - rewrite <- list_fmap_compose. apply list_fmap_ext. intros _ r _. simpl.
    destruct (decide (sameKey teamId (internal_id rec) r)) as [Hr|Hr].
    + rewrite decide_True; [apply written_idem|].
      destruct Hr as [Ht Hi]. unfold sameKey.
      destruct (written_keys rec r) as (_ & -> & ->). split; assumption.
    + rewrite decide_False by exact Hr. reflexivity.
Qed.

Lemma appended_table_is_fixed generatedId now teamId rec base baseCcy
    (s : list transactions.row) (row : transactions.row) :
  list_find (sameKey teamId (internal_id rec)) s = None →
  transactions.stored
    (transactions.create generatedId now (date rec) (name rec)
       (method rec) (amount rec) (currency rec) teamId
       (Some (bank_account_id rec)) (internal_id rec) base baseCcy) = Some row →
  is_Some (list_find (sameKey teamId (internal_id rec)) (s ++ [row]))
  ∧ mergeIf teamId rec <$> (s ++ [row]) = (s ++ [row])%list
  ∧ filter (sameKey teamId (internal_id rec)) (s ++ [row]) = [row].
Proof.
  intros Hnone Hrow.
  assert (Hr : sameKey teamId (internal_id rec) row).
  { destruct (stored_keys _ _ Hrow) as (_ & Hi & Ht). split; [exact Ht|exact Hi]. }
  pose proof Hnone as Hall. apply list_find_None in Hall.
  split; [|split].
  - rewrite list_find_app_r by exact Hnone.
    simpl. rewrite decide_True by exact Hr. simpl. eauto.
  - rewrite fmap_app. f_equal.
    + clear Hnone. induction Hall as [|a l Ha _ IH]; [reflexivity|].
      csimpl. rewrite IH, decide_False by exact Ha. reflexivity.
    + simpl. rewrite decide_True by exact Hr.
      rewrite (stored_merge_created _ _ _ _ _ _ _ Hrow). reflexivity.
  - rewrite list.filter_app, (filter_none _ s Hall). simpl.
    rewrite filter_cons_True by exact Hr. reflexivity.
Qed.

(** No row of the team holds an [internal_id] that no row holds, or that
    a row of another team holds. *)
Lemma no_row_of_the_team teamId internal_id (s : list transactions.row) :
  transactions.Consistent s →
  (internal_id ∉ transactions.internalId <$> s)
  ∨ (∃ r, r ∈ s ∧ transactions.internalId r = internal_id
          ∧ transactions.teamId r ≠ teamId) →
  Forall (λ r, ¬ sameKey teamId internal_id r) s.
Proof.
  intros Hc Hcase. apply list.Forall_forall. intros x Hx [Ht Hi].
  destruct Hcase as [Hfree|(r & Hr & Hri & Hrt)].
  - apply Hfree. rewrite <- Hi. apply list_elem_of_fmap. eauto.
  - apply list_elem_of_lookup_1 in Hx as [i Hxi].
    apply list_elem_of_lookup_1 in Hr as [j Hrj].
    assert (i = j) by (eapply (internalId_unique s Hc i j x r); congruence).
    subst j. congruence.
Qed.

(** A transaction whose [internal_id] a row holds cannot be inserted,
    whatever its team. *)
Lemma insert_taken_internalId (r x : transactions.row) (s : list transactions.row) :
  x ∈ s → transactions.internalId x = transactions.internalId r →
  transactions.insert r s = None.
Proof.
  intros Hx Hxr.
  destruct (transactions.insert r s) as [s'|] eqn:Hins; [|reflexivity]. exfalso.
  apply transactions_insert_Some in Hins as (r' & Hr' & -> & Hc').
  apply Consistent_snoc in Hc' as (_ & _ & Hfresh).
  unfold transactions.uniqueIndexes in Hfresh.
  apply Forall_singleton, fresh_required in Hfresh. apply Hfresh.
  destruct (stored_keys _ _ Hr') as (_ & -> & _). rewrite <- Hxr.
  apply list_elem_of_fmap. eauto.
Qed.
End LedgerFacts.

(** C1, as stated, fails: the unique index of [transactions] is on
    [internal_id] alone (schema.ts:266), so once a row of team-1 holds
    [bank-tx-1] a valid record of team-2 with that [internal_id] is refused
    on the first call and on the second, no row is stored for [(team-2,
    bank-tx-1)], and no insert of a row with that [internal_id] succeeds. *)
Lemma ingestTransaction_refuses_the_second_team :
  let s := [Examples.transaction] in
  let first := Ledger.ingestTransaction Examples.baseCurrencyOf Examples.convert
                 "tx-row-2" 1704931200000 "team-2" Examples.bankRecord s in
  let second := Ledger.ingestTransaction Examples.baseCurrencyOf Examples.convert
                  "tx-row-3" 1704931260000 "team-2" Examples.bankRecord first.2 in
  transactions.reachable s
  ∧ isSupportedCurrency (Ledger.currency Examples.bankRecord) = true
  ∧ isFinite (Ledger.amount Examples.bankRecord) = true
  ∧ first = (Fail ConflictError, s)
  ∧ second = (Fail ConflictError, s)
  ∧ length (Ledger.rowsOf "team-2" "bank-tx-1" second.2) = 0%nat
  ∧ (∀ r, transactions.internalId r = "bank-tx-1" →
          transactions.insert r s = None).
Proof.
  cbv zeta.
  split.
  { apply (transactions.reach_insert Examples.transaction [] _);
      [constructor|vm_compute; reflexivity]. }
  do 5 (split; [vm_compute; reflexivity|]).
  intros r Hr. apply (insert_taken_internalId r Examples.transaction).
  - apply list_elem_of_singleton. reflexivity.
  - rewrite Hr. reflexivity.
Qed.

(** C1, amended: ingestion is idempotent on [internal_id], which the
    unique index keeps apart across all teams.  In a table that inserts,
    updates and deletes can produce,
    - a valid record whose [internal_id] no row holds is created, given a
      fresh row id and a conversion that succeeds, and is then the one row
      of its [(team_id, internal_id)];
    - a valid record whose [(team_id, internal_id)] a row holds is merged
      into that row, and the table keeps its rows and their ids;
    - a record whose [internal_id] a row of another team holds is refused,
      with [ConflictError] when it is valid and the conversion succeeds, and
      no row is stored for its [(team_id, internal_id)];
    - after an accepted ingestion, ingesting the same payload again returns
      [unchanged], changes nothing and leaves exactly one row for the key;
    - a refused ingestion leaves the table as it was;
    - no two stored rows share an [internal_id], of one team or of two. *)
Theorem ingestTransaction_is_idempotent :
  (∀ baseCurrencyOf convert generatedId now teamId rec
     (s : list transactions.row) base,
     transactions.reachable s →
     isSupportedCurrency (Ledger.currency rec) = true →
     isFinite (Ledger.amount rec) = true →
     Ledger.internal_id rec ∉ transactions.internalId <$> s →
     generatedId ∉ transactions.id <$> s →
     convert (Ledger.amount rec) (Ledger.currency rec) (baseCurrencyOf teamId) now
       = Some base →
     ∃ row,
       Ledger.ingestTransaction baseCurrencyOf convert generatedId now teamId rec s
         = (Ok Ledger.created, (s ++ [row])%list)
       ∧ transactions.stored
           (transactions.create generatedId now (Ledger.date rec)
              (Ledger.name rec) (Ledger.method rec) (Ledger.amount rec)
              (Ledger.currency rec) teamId (Some (Ledger.bank_account_id rec))
              (Ledger.internal_id rec) (Some base) (Some (baseCurrencyOf teamId)))
         = Some row
       ∧ Ledger.rowsOf teamId (Ledger.internal_id rec) (s ++ [row]) = [row])
  ∧ (∀ baseCurrencyOf convert generatedId now teamId rec
       (s : list transactions.row) r,
       transactions.reachable s →
       isSupportedCurrency (Ledger.currency rec) = true →
       isFinite (Ledger.amount rec) = true →
       r ∈ s → Ledger.sameKey teamId (Ledger.internal_id rec) r →
       ∃ s1,
         Ledger.ingestTransaction baseCurrencyOf convert generatedId now teamId rec s
           = (Ok Ledger.unchanged, s1)
         ∧ transactions.id <$> s1 = transactions.id <$> s
         ∧ length (Ledger.rowsOf teamId (Ledger.internal_id rec) s1) = 1%nat)
  ∧ (∀ baseCurrencyOf convert generatedId now teamId rec
       (s : list transactions.row) r,
       transactions.reachable s →
       r ∈ s → transactions.internalId r = Ledger.internal_id rec →
       transactions.teamId r ≠ teamId →
       (∃ e, Ledger.ingestTransaction baseCurrencyOf convert generatedId now
               teamId rec s = (Fail e, s))
       ∧ (isSupportedCurrency (Ledger.currency rec) = true →
          isFinite (Ledger.amount rec) = true →
          is_Some (convert (Ledger.amount rec) (Ledger.currency rec)
                     (baseCurrencyOf teamId) now) →
          Ledger.ingestTransaction baseCurrencyOf convert generatedId now
            teamId rec s = (Fail ConflictError, s))
       ∧ Ledger.rowsOf teamId (Ledger.internal_id rec) s = [])
  ∧ (∀ baseCurrencyOf convert baseCurrencyOf' convert'
       generatedId now generatedId' now' teamId rec
       (s : list transactions.row) res s1,
       transactions.reachable s →
       Ledger.ingestTransaction baseCurrencyOf convert generatedId now teamId rec s
         = (Ok res, s1) →
       Ledger.ingestTransaction baseCurrencyOf' convert' generatedId' now' teamId rec s1
         = (Ok Ledger.unchanged, s1)
       ∧ length (Ledger.rowsOf teamId (Ledger.internal_id rec) s1) = 1%nat
       ∧ transactions.reachable s1)
  ∧ (∀ baseCurrencyOf convert generatedId now teamId rec
       (s : list transactions.row) e s1,
       Ledger.ingestTransaction baseCurrencyOf convert generatedId now teamId rec s
         = (Fail e, s1) → s1 = s)
  ∧ (∀ s : list transactions.row, transactions.reachable s →
       ∀ (i j : nat) r1 r2, s !! i = Some r1 → s !! j = Some r2 →
         transactions.internalId r1 = transactions.internalId r2 → i = j).
Proof.
  split; [|split; [|split; [|split; [|split]]]].
  - intros baseCurrencyOf convert generatedId now teamId rec s base
      Hreach Hcur Hfin Hfree Hid Hconv.
    apply transactions_reachable_Consistent in Hreach.
    pose proof (no_row_of_the_team teamId (Ledger.internal_id rec) s Hreach
                  (or_introl Hfree)) as Hall.
    assert (Hnone : list_find (Ledger.sameKey teamId (Ledger.internal_id rec)) s = None)
      by (apply list_find_None, Hall).
    destruct (proj2 (stored_is_Some
                (transactions.create generatedId now (Ledger.date rec)
                   (Ledger.name rec) (Ledger.method rec) (Ledger.amount rec)
                   (Ledger.currency rec) teamId (Some (Ledger.bank_account_id rec))
                   (Ledger.internal_id rec) (Some base)
                   (Some (baseCurrencyOf teamId)))) Hfin) as [row Hrow].
    exists row.
    assert (Hins : transactions.insert
                     (transactions.create generatedId now (Ledger.date rec)
                        (Ledger.name rec) (Ledger.method rec) (Ledger.amount rec)
                        (Ledger.currency rec) teamId
                        (Some (Ledger.bank_account_id rec))
                        (Ledger.internal_id rec) (Some base)
                        (Some (baseCurrencyOf teamId))) s
                   = Some (s ++ [row])%list).
    { apply transactions_insert_Some. exists row.
      split; [exact Hrow|]. split; [reflexivity|].
      destruct (stored_keys _ _ Hrow) as (Hk1 & Hk2 & _).
      apply Consistent_snoc. split; [exact Hreach|]. split.
      - unfold transactions.primaryKey. rewrite Hk1. exact Hid.
      - unfold transactions.uniqueIndexes.
        apply Forall_singleton, fresh_required. rewrite Hk2. exact Hfree. }
    split; [|split; [exact Hrow|]].
    + unfold Ledger.ingestTransaction.
      rewrite Hcur, Hfin, Hnone, Hconv. simpl. rewrite Hins. reflexivity.
    + eapply appended_table_is_fixed; [exact Hnone|exact Hrow].
  - intros baseCurrencyOf convert generatedId now teamId rec s r
      Hreach Hcur Hfin Hr Hkey.
    apply transactions_reachable_Consistent in Hreach.
    assert (Hsome : is_Some (list_find (Ledger.sameKey teamId (Ledger.internal_id rec)) s)).
    { destruct (list_find (Ledger.sameKey teamId (Ledger.internal_id rec)) s)
        eqn:Hfind; [eauto|].
      exfalso. apply list_find_None in Hfind.
      rewrite list.Forall_forall in Hfind. exact (Hfind r Hr Hkey). }
    eexists. split; [apply ingestTransaction_merges; assumption|]. split.
    + rewrite <- list_fmap_compose. apply list_fmap_ext. intros _ x _. simpl.
      case_decide; [apply written_keys|reflexivity].
    + unfold Ledger.rowsOf.
      rewrite filter_fmap_length by (intros x; apply mergeIf_sameKey).
      destruct Hsome as [p Hp].
      pose proof (list_find_Some_filter _ _ _ Hp).
      pose proof (filter_at_most_one (Ledger.sameKey teamId (Ledger.internal_id rec)) s
                    (sameKey_unique teamId (Ledger.internal_id rec) s Hreach)).
      lia.
  - intros baseCurrencyOf convert generatedId now teamId rec s r
      Hreach Hr Hri Hrt.
    apply transactions_reachable_Consistent in Hreach.
    pose proof (no_row_of_the_team teamId (Ledger.internal_id rec) s Hreach
                  (or_intror (ex_intro _ r (conj Hr (conj Hri Hrt))))) as Hall.
    assert (Hnone : list_find (Ledger.sameKey teamId (Ledger.internal_id rec)) s = None)
      by (apply list_find_None, Hall).
    assert (Hins : ∀ base,
              transactions.insert
                (transactions.create generatedId now (Ledger.date rec)
                   (Ledger.name rec) (Ledger.method rec) (Ledger.amount rec)
                   (Ledger.currency rec) teamId (Some (Ledger.bank_account_id rec))
                   (Ledger.internal_id rec) (Some base)
                   (Some (baseCurrencyOf teamId))) s = None).
    { intros base. apply (insert_taken_internalId _ r); [exact Hr|exact Hri]. }
    split; [|split].
    + unfold Ledger.ingestTransaction.
      destruct (negb _ || negb _); [eauto|]. rewrite Hnone.
      destruct (convert _ _ _ _) as [base|]; [|eauto].
      rewrite Hins. eauto.
    + intros Hcur Hfin [base Hconv]. unfold Ledger.ingestTransaction.
      rewrite Hcur, Hfin, Hnone, Hconv. simpl. rewrite Hins. reflexivity.
    + apply filter_none, Hall.
  - intros baseCurrencyOf convert baseCurrencyOf' convert'
      generatedId now generatedId' now' teamId rec s res s1 Hreach Hfirst.
    pose proof (transactions_reachable_Consistent _ Hreach) as Hc.
    destruct (ingestTransaction_accepted _ _ _ _ _ _ _ _ _ Hc Hfirst)
      as (Hcur & Hfin & Hc1
          & [(-> & Hsome & Hupd & ->)|(-> & Hnone & base & row & Hins & Hrow & ->)]).
    + destruct (merged_table_is_fixed teamId rec s Hsome) as [Hsome' Hfix].
      split; [apply ingestTransaction_known_key; assumption|].
      split; [|eapply transactions.reach_update; [exact Hreach|exact Hupd]].
      unfold Ledger.rowsOf.
      rewrite filter_fmap_length by (intros x; apply mergeIf_sameKey).
      destruct Hsome as [p Hp].
      pose proof (list_find_Some_filter _ _ _ Hp).
      pose proof (filter_at_most_one (Ledger.sameKey teamId (Ledger.internal_id rec)) s
                    (sameKey_unique teamId (Ledger.internal_id rec) s Hc)).
      lia.
    + destruct (appended_table_is_fixed generatedId now teamId rec (Some base)
                  (Some (baseCurrencyOf teamId)) s row Hnone Hrow)
        as (Hsome' & Hfix & Hrows).
      split; [apply ingestTransaction_known_key; assumption|].
      split; [|eapply transactions.reach_insert; [exact Hreach|exact Hins]].
      unfold Ledger.rowsOf. rewrite Hrows. reflexivity.
  - intros baseCurrencyOf convert generatedId now teamId rec s e s1.
    unfold Ledger.ingestTransaction.
    destruct (negb _ || negb _); [congruence|].
    destruct (list_find _ s);
      [destruct (transactions.update _ _ s); congruence|].
    destruct (convert _ _ _ _); [|congruence].
    destruct (transactions.insert _ s); congruence.
  - intros s Hreach i j r1 r2 Hi Hj Hid.
    apply transactions_reachable_Consistent in Hreach.
    eapply (internalId_unique s Hreach i j r1 r2 Hi Hj Hid).
Qed.

(** C6: [ingestTransaction] fails with [ValidationError] and leaves the
    stored transactions as they were whenever the currency code of the
    record is not supported or its amount is not finite; for a supported
    currency and a finite amount its result is not [ValidationError]. *)
Theorem ingestTransaction_validation :
  ∀ baseCurrencyOf convert generatedId now teamId rec (s : list transactions.row),
    (isSupportedCurrency (Ledger.currency rec) = false
     ∨ isFinite (Ledger.amount rec) = false →
     Ledger.ingestTransaction baseCurrencyOf convert generatedId now teamId rec s
       = (Fail ValidationError, s))
    ∧ (isSupportedCurrency (Ledger.currency rec) = true →
       isFinite (Ledger.amount rec) = true →
       (Ledger.ingestTransaction baseCurrencyOf convert generatedId now teamId rec s).1
         ≠ Fail ValidationError).
Proof.
  intros. unfold Ledger.ingestTransaction. split.
  - intros [-> | ->]; [reflexivity|].
    rewrite orb_true_r. reflexivity.
  - intros -> ->. simpl.
    destruct (list_find _ s); [destruct (transactions.update _ _ s); discriminate|].
    destruct (convert _ _ _ _); [|discriminate].
    destruct (transactions.insert _ s); discriminate.
Qed.

Lemma ingestTransaction_is_idempotent_witness :
  let row := transactions.create "tx-row-1" 1704844800000 "2024-01-10"
               "Office rent" "transfer" (of_decimal 10000 2) "USD" "team-1"
               (Some "account-1") "bank-tx-1" (Some (of_decimal 10000 2))
               (Some "USD") in
  Ledger.ingestTransaction Examples.baseCurrencyOf Examples.convert
    "tx-row-2" 1704931200000 "team-1" Examples.bankRecord [row]
    = (Ok Ledger.unchanged, [row])
  ∧ length (Ledger.rowsOf "team-1" "bank-tx-1" [row]) = 1%nat
  ∧ transactions.reachable [row].
Proof.
  cbv zeta.
  apply (proj1 (proj2 (proj2 (proj2 ingestTransaction_is_idempotent)))
           Examples.baseCurrencyOf Examples.convert
           Examples.baseCurrencyOf Examples.convert
           "tx-row-1" 1704844800000 "tx-row-2" 1704931200000
           "team-1" Examples.bankRecord [] Ledger.created).
  - apply transactions.reach_empty.
  - vm_compute. reflexivity.
Defined.

Lemma ingestTransaction_validation_witness :
  Ledger.ingestTransaction Examples.baseCurrencyOf Examples.convert
    "tx-row-1" 1704844800000 "team-1" Examples.foreignRecord []
    = (Fail ValidationError, [])
  ∧ (Ledger.ingestTransaction Examples.baseCurrencyOf Examples.convert
       "tx-row-1" 1704844800000 "team-1" Examples.bankRecord []).1
    ≠ Fail ValidationError.
Proof.
  split.
  - apply (proj1 (ingestTransaction_validation Examples.baseCurrencyOf
                    Examples.convert "tx-row-1" 1704844800000 "team-1"
                    Examples.foreignRecord [])).
    left. reflexivity.
  - apply (proj2 (ingestTransaction_validation Examples.baseCurrencyOf
                    Examples.convert "tx-row-1" 1704844800000 "team-1"
                    Examples.bankRecord [])); reflexivity.
Defined.

Lemma invoice_numbers_and_tokens_are_unique_witness :
  (0 = 0)%nat
  ∧ (InvoiceNumbers.counter "team-1" Examples.twoTeams = Some 7
     ∧ InvoiceNumbers.counter "team-1"
         (InvoiceNumbers.bump "team-1" <$> Examples.twoTeams) = Some (7 + 1)
     ∧ (∀ other, other ≠ "team-1" →
          InvoiceNumbers.counter other
            (InvoiceNumbers.bump "team-1" <$> Examples.twoTeams)
          = InvoiceNumbers.counter other Examples.twoTeams)
     ∧ teams.Consistent (InvoiceNumbers.bump "team-1" <$> Examples.twoTeams))
  ∧ NoDup (InvoiceNumbers.allocateAll ["team-1"; "team-2"; "team-1"]
             Examples.twoTeams).1.
Proof.
  assert (Hteams : teams.Consistent Examples.twoTeams).
  { apply (bool_decide_unpack _). vm_compute. exact I. }
  assert (Hinvoices : invoices.reachable [Examples.invoice]).
  { eapply (Table.reach_insert _ _ Examples.invoice []).
    - apply Table.reach_empty.
    - vm_compute. reflexivity. }
  split; [|split].
  - apply (proj1 invoice_numbers_and_tokens_are_unique [Examples.invoice]
             Hinvoices 0%nat 0%nat Examples.invoice Examples.invoice
             eq_refl eq_refl); reflexivity.
  - apply (proj1 (proj2 invoice_numbers_and_tokens_are_unique)
             Examples.twoTeams "team-1" 7
             (InvoiceNumbers.bump "team-1" <$> Examples.twoTeams) Hteams).
    vm_compute. reflexivity.
  - apply (proj2 (proj2 invoice_numbers_and_tokens_are_unique)
             Examples.twoTeams ["team-1"; "team-2"; "team-1"] Hteams).
Defined.

(** ** Inbox state machine *)

Section InboxFacts.
Import InboxStatus InboxEngine.

Lemma parse_text (s : t) : parse (text s) = Some s.
Proof. destruct s; reflexivity. Qed.

Lemma parse_Some (str : string) (s : t) : parse str = Some s → str = text s.
Proof.
  unfold parse. destruct (list_find _ values) as [[i v]|] eqn:Hfind; [|discriminate].
  intros [= <-]. apply list_find_Some in Hfind as (_ & H & _). symmetry. exact H.
Qed.

Lemma next_edge (s s' : t) ev link :
  next s ev = Some (s', link) → edge s s' = true.
Proof.
  destruct ev as [| |[tx| |]|tx| |], s; simpl; intros [= <- <-]; reflexivity.
Qed.

(** Only the two rules that end in [done] link a transaction. *)
Lemma next_link (s s' : t) ev tx :
  next s ev = Some (s', Some tx) → s' = done.
Proof.
  destruct ev as [| |[tx'| |]|tx'| |], s; simpl; intros [= <- <-]; reflexivity.
Qed.

Lemma next_done ev : next done ev = None.
Proof. destruct ev as [| |[tx| |]|tx| |]; reflexivity. Qed.

Lemma step_Ok ev (item item' : inbox.row) :
  step ev item = Ok item' →
  ∃ s s' link,
    inbox.status item = Some (text s) ∧ next s ev = Some (s', link)
    ∧ item' = inbox.with_status_transaction (Some (text s'))
                (match link with
                 | Some tx => Some tx
                 | None => inbox.transactionId item
                 end) item.
Proof.
  unfold step. destruct (inbox.status item) as [str|] eqn:Hst; [|discriminate].
  simpl. destruct (parse str) as [s|] eqn:Hparse; [|discriminate].
  apply parse_Some in Hparse as ->.
  destruct (next s ev) as [[s' link]|] eqn:Hnext; [|discriminate].
  intros [= <-]. eauto 6.
Qed.

Lemma stepOrKeep_cases (item : inbox.row) ev :
  stepOrKeep item ev = item
  ∨ step ev item = Ok (stepOrKeep item ev).
Proof. unfold stepOrKeep. destruct (step ev item); auto. Qed.

Lemma done_is_final (x : t) :
  rtc (λ a b, edge a b = true) done x → x = done.
Proof.
  intros H. remember done as d eqn:Hd. induction H as [|a b c Hab _ IH].
  - reflexivity.
  - subst a. destruct b; discriminate.
Qed.

Lemma run_follows_edges evs :
  ∀ (item : inbox.row) (s : t),
    inbox.status item = Some (text s) →
    ∃ s', inbox.status (run evs item) = Some (text s')
          ∧ rtc (λ a b, edge a b = true) s s'.
Proof.
  induction evs as [|ev evs IH]; intros item s Hs.
  - exists s. split; [exact Hs|constructor].
  - simpl. destruct (stepOrKeep_cases item ev) as [->|Hstep].
    + apply IH, Hs.
    + apply step_Ok in Hstep as (s0 & s1 & link & Hs0 & Hnext & Heq).
      assert (s0 = s) as ->.
      { rewrite Hs in Hs0. injection Hs0 as Ht.
        apply (f_equal parse) in Ht. rewrite !parse_text in Ht. congruence. }
      destruct (IH (stepOrKeep item ev) s1) as (s' & Hrun & Hpath).
      { rewrite Heq. reflexivity. }
      exists s'. split; [exact Hrun|].
      eapply rtc_l; [|exact Hpath]. simpl. eapply next_edge, Hnext.
Qed.

Lemma stepOrKeep_linkedOnlyWhenDone (item : inbox.row) ev :
  linkedOnlyWhenDone item → linkedOnlyWhenDone (stepOrKeep item ev).
Proof.
  intros Hinv. destruct (stepOrKeep_cases item ev) as [->|Hstep]; [exact Hinv|].
  apply step_Ok in Hstep as (s & s' & link & Hs & Hnext & ->).
  unfold linkedOnlyWhenDone in *. simpl. intros Hlinked.
  destruct link as [tx|].
  - apply next_link in Hnext as ->. reflexivity.
  - specialize (Hinv Hlinked). rewrite Hs in Hinv. injection Hinv as Ht.
    apply (f_equal parse) in Ht. rewrite !parse_text in Ht.
    injection Ht as ->. rewrite next_done in Hnext. discriminate.
Qed.

Lemma apply_linkedOnlyWhenDone (s : list inbox.row) op :
  Forall linkedOnlyWhenDone s → Forall linkedOnlyWhenDone (apply s op).
Proof.
  intros Hs.
  assert (Hnew : ∀ r s', inbox.transactionId r = None →
            inbox.insert r s = Some s' → Forall linkedOnlyWhenDone s').
  { intros r s' Hr Hins. apply commit_Some in Hins as [-> _].
    apply Forall_app. split; [exact Hs|].
    constructor; [|constructor].
    intros Hl. rewrite Hr in Hl. destruct Hl as [? [=]]. }
  destruct op as [generatedId now teamId reference_id payload
                 |generatedId now teamId payload|itemId ev]; simpl.
  - destruct (list_find _ s).
    + destruct (inbox.update _ _ s) as [s'|] eqn:Hupd; simpl; [|exact Hs].
      apply commit_Some in Hupd as [-> _].
      apply Forall_fmap. eapply Forall_impl; [exact Hs|].
      intros r Hr. simpl. case_decide; exact Hr.
    + destruct (inbox.insert _ s) as [s'|] eqn:Hins; simpl; [|exact Hs].
      eapply Hnew; [|exact Hins]. reflexivity.
  - destruct (inbox.insert _ s) as [s'|] eqn:Hins; simpl; [|exact Hs].
    eapply Hnew; [|exact Hins]. reflexivity.
  - destruct (inbox.update _ _ s) as [s'|] eqn:Hupd; simpl; [|exact Hs].
    apply commit_Some in Hupd as [-> _].
    apply Forall_fmap. eapply Forall_impl; [exact Hs|].
    intros r Hr. simpl. case_decide; [|exact Hr].
    apply stepOrKeep_linkedOnlyWhenDone, Hr.
Qed.
Lemma text_inj (a b : t) : text a = text b → a = b.
Proof.
  intros Heq. apply (f_equal parse) in Heq. rewrite !parse_text in Heq.
  congruence.
Qed.

Lemma moved_refl (r : inbox.row) : moved r r.
Proof. split; [reflexivity|left; reflexivity]. Qed.

Lemma moved_stepOrKeep (r : inbox.row) ev : moved r (stepOrKeep r ev).
Proof.
  destruct (stepOrKeep_cases r ev) as [->|Hstep]; [apply moved_refl|].
  apply step_Ok in Hstep as (a & b & link & Ha & Hnext & ->).
  split; [reflexivity|]. right. exists a, b.
  split; [exact Ha|]. split; [reflexivity|]. eapply next_edge, Hnext.
Qed.

(** A status that is moved follows one edge or none. *)
Lemma moved_edge (r r' : inbox.row) (a : t) :
  moved r r' → inbox.status r = Some (text a) →
  ∃ b, inbox.status r' = Some (text b) ∧ (b = a ∨ edge a b = true).
Proof.
  intros [_ [Hsame|(a' & b & Ha' & Hb & Hedge)]] Ha.
  - exists a. split; [congruence|left; reflexivity].
  - exists b. split; [exact Hb|]. right.
    rewrite Ha in Ha'. injection Ha' as ->%text_inj. exact Hedge.
Qed.

Lemma update_lookup (P : inbox.row → Prop) `{!∀ r, Decision (P r)}
    (f : inbox.row → inbox.row) (s : list inbox.row) :
  (∀ r, moved r (f r)) →
  length (default s (inbox.update P f s)) = length s
  ∧ ∀ (i : nat) r, s !! i = Some r →
      ∃ r', default s (inbox.update P f s) !! i = Some r' ∧ moved r r'.
Proof.
  intros Hf. unfold inbox.update, Table.update, Table.commit.
  case_decide; simpl.
  - split; [apply length_fmap|]. intros i r Hi.
    rewrite list_lookup_fmap, Hi. simpl. eexists. split; [reflexivity|].
    case_decide; [apply Hf|apply moved_refl].
  - split; [reflexivity|]. intros i r Hi. exists r.
    split; [exact Hi|apply moved_refl].
Qed.

Lemma insert_lookup (x : inbox.row) (s : list inbox.row) :
  (∀ (i : nat) r, s !! i = Some r →
      default s (inbox.insert x s) !! i = Some r)
  ∧ (∀ (i : nat) r', s !! i = None →
      default s (inbox.insert x s) !! i = Some r' → r' = x).
Proof.
  unfold inbox.insert, Table.insert, Table.commit. case_decide; simpl.
  - split.
    + intros i r Hi. rewrite lookup_app_l; [exact Hi|].
      eapply lookup_lt_Some, Hi.
    + intros i r' Hnone Hi. apply lookup_ge_None in Hnone.
      rewrite lookup_app_r in Hi by exact Hnone.
      apply list_lookup_singleton_Some in Hi as [_ Hx]. congruence.
  - split; [auto|]. intros i r' Hnone Hi. congruence.
Qed.

(** Under an operation a stored item keeps its place; its status stays or
    moves along an edge. *)
Lemma apply_lookup (s : list inbox.row) op (i : nat) (r : inbox.row) :
  s !! i = Some r → ∃ r', apply s op !! i = Some r' ∧ moved r r'.
Proof.
  intros Hi.
  destruct op as [generatedId now teamId reference_id payload
                 |generatedId now teamId payload|itemId ev]; simpl.
  - destruct (list_find _ s).
    + eapply update_lookup; [|exact Hi].
      intros x. split; [reflexivity|left; reflexivity].
    + exists r. split; [eapply insert_lookup, Hi|apply moved_refl].
  - exists r. split; [eapply insert_lookup, Hi|apply moved_refl].
  - eapply update_lookup; [|exact Hi]. intros x. apply moved_stepOrKeep.
Qed.

(** An item that an operation adds enters in [new] or in [pending]. *)
Lemma apply_entered (s : list inbox.row) op (i : nat) (r' : inbox.row) :
  s !! i = None → apply s op !! i = Some r' → entered r'.
Proof.
  intros Hnone.
  assert (Hupd : ∀ (P : inbox.row → Prop) `{!∀ r, Decision (P r)} f,
            (∀ r, moved r (f r)) →
            default s (inbox.update P f s) !! i = Some r' → entered r').
  { intros P HP f Hf Hi. exfalso.
    apply lookup_lt_Some in Hi.
    rewrite (proj1 (update_lookup P f s Hf)) in Hi.
    apply lookup_ge_None in Hnone. lia. }
  destruct op as [generatedId now teamId reference_id payload
                 |generatedId now teamId payload|itemId ev]; simpl.
  - destruct (list_find _ s).
    + apply Hupd. intros x. split; [reflexivity|left; reflexivity].
    + intros Hi. eapply insert_lookup in Hi as ->; [|exact Hnone].
      left. reflexivity.
  - intros Hi. eapply insert_lookup in Hi as ->; [|exact Hnone].
    right. reflexivity.
  - apply Hupd. intros x. apply moved_stepOrKeep.
Qed.

(** Under any sequence of operations the status of a stored item follows
    a path of the graph. *)
Lemma foldl_apply_path ops :
  ∀ (s : list inbox.row) (i : nat) (r : inbox.row) (a : t),
    s !! i = Some r → inbox.status r = Some (text a) →
    ∃ r' b, foldl apply s ops !! i = Some r' ∧ inbox.id r' = inbox.id r
            ∧ inbox.status r' = Some (text b)
            ∧ rtc (λ a b, edge a b = true) a b.
Proof.
  induction ops as [|op ops IH]; intros s i r a Hi Ha.
  - exists r, a. split; [exact Hi|]. split; [reflexivity|].
    split; [exact Ha|constructor].
  - simpl. destruct (apply_lookup s op i r Hi) as (r1 & Hi1 & Hmoved).
    destruct (moved_edge r r1 a Hmoved Ha) as (a1 & Ha1 & Hstep).
    destruct (IH (apply s op) i r1 a1 Hi1 Ha1) as (r' & b & Hi' & Hid & Hb & Hpath).
    exists r', b. split; [exact Hi'|].
    split; [rewrite Hid; apply Hmoved|]. split; [exact Hb|].
    destruct Hstep as [->|Hedge]; [exact Hpath|].
    eapply rtc_l; [exact Hedge|exact Hpath].
Qed.

(** Every item of a table that the operations built has come from [new]
    or from [pending] along a path of the graph. *)
Lemma foldl_apply_from_entry ops :
  ∀ s : list inbox.row,
    Forall (λ r, ∃ a b, (a = new ∨ a = pending)
                        ∧ inbox.status r = Some (text b)
                        ∧ rtc (λ a b, edge a b = true) a b) s →
    Forall (λ r, ∃ a b, (a = new ∨ a = pending)
                        ∧ inbox.status r = Some (text b)
                        ∧ rtc (λ a b, edge a b = true) a b)
           (foldl apply s ops).
Proof.
  induction ops as [|op ops IH]; intros s Hs; [exact Hs|].
  simpl. apply IH. rewrite list.Forall_forall in Hs.
  apply list.Forall_forall. intros r' (i & Hi')%list_elem_of_lookup_1.
  destruct (s !! i) as [r|] eqn:Hi.
  - destruct (apply_lookup s op i r Hi) as (r1 & Hi1 & Hmoved).
    assert (r1 = r') as -> by congruence.
    destruct (Hs r (list_elem_of_lookup_2 _ _ _ Hi)) as (a & b & Hentry & Hb & Hpath).
    destruct (moved_edge r r' b Hmoved Hb) as (b' & Hb' & Hstep).
    exists a, b'. split; [exact Hentry|]. split; [exact Hb'|].
    destruct Hstep as [->|Hedge]; [exact Hpath|].
    eapply rtc_r; [exact Hpath|exact Hedge].
  - destruct (apply_entered s op i r' Hi Hi') as [Hst|Hst].
    + exists new, new. split; [auto|]. split; [exact Hst|constructor].
    + exists pending, pending. split; [auto|]. split; [exact Hst|constructor].
Qed.
(** A transition that the rules allow is made: the stored item gets the
    next status. *)
Lemma transition_moves (s : list inbox.row) (i : nat) (r : inbox.row) ev
    (a b : t) link :
  inbox.Consistent s → s !! i = Some r →
  inbox.status r = Some (text a) → next a ev = Some (b, link) →
  ∃ r', apply s (Transition (inbox.id r) ev) !! i = Some r'
        ∧ inbox.id r' = inbox.id r
        ∧ inbox.status r' = Some (text b).
Proof.
  intros Hc Hi Ha Hnext.
  assert (Hstep : stepOrKeep r ev
            = inbox.with_status_transaction (Some (text b))
                (match link with
                 | Some tx => Some tx
                 | None => inbox.transactionId r
                 end) r).
  { unfold stepOrKeep, step. rewrite Ha. simpl. rewrite parse_text, Hnext.
    reflexivity. }
  assert (Hkeys : ∀ x, inbox.id (stepOrKeep x ev) = inbox.id x
                       ∧ inbox.referenceId (stepOrKeep x ev) = inbox.referenceId x).
  { intros x. destruct (stepOrKeep_cases x ev) as [->|Hx]; [auto|].
    apply step_Ok in Hx as (? & ? & ? & _ & _ & ->). auto. }
  simpl. unfold inbox.update.
  rewrite update_same_keys; [|exact Hc|intros x; apply Hkeys|].
  - simpl. rewrite list_lookup_fmap, Hi. simpl.
    rewrite decide_True by reflexivity.
    exists (stepOrKeep r ev). split; [reflexivity|].
    rewrite Hstep. split; reflexivity.
  - intros ix x Hix. unfold inbox.uniqueIndexes in Hix.
    apply list_elem_of_singleton in Hix as ->. apply Hkeys.
Qed.
End InboxFacts.

(** C4: the nine inbox states are the values of the schema; every
    transition an operation makes is an edge of the graph of §4.2, so the
    statuses an item passes through under any sequence of events form a
    path of the graph; [deleted] is reachable from every state that is not
    terminal and [pending] enters the chain at [processing]; no edge leaves
    [done], so an item that is [done] stays [done] and is never moved back
    to [analyzing].  The same holds of the operations on the [inbox] table
    (ingestion with its upsert on a known reference, manual upload, and the
    transition of a stored item): an operation leaves every stored item in
    its place with its status unchanged or moved along one edge, a new item
    enters in [new] or [pending], so under any sequence of operations the
    status of an item follows a path of the graph from its entry state, and
    no sequence of operations moves an item that is [done] to another
    status; a transition that the rules allow is made. *)
Theorem inbox_status_follows_the_graph :
  (InboxStatus.text <$> InboxStatus.values = inboxStatusValues
   ∧ ∀ s : InboxStatus.t, s ∈ InboxStatus.values)
  ∧ (∀ ev (item item' : inbox.row), InboxEngine.step ev item = Ok item' →
       ∃ s s', inbox.status item = Some (InboxStatus.text s)
               ∧ inbox.status item' = Some (InboxStatus.text s')
               ∧ InboxEngine.edge s s' = true)
  ∧ (∀ evs (item : inbox.row) s,
       inbox.status item = Some (InboxStatus.text s) →
       ∃ s', inbox.status (InboxEngine.run evs item) = Some (InboxStatus.text s')
             ∧ rtc (λ a b, InboxEngine.edge a b = true) s s')
  ∧ (∀ s, InboxEngine.terminal s = false →
       InboxEngine.next s InboxEngine.Delete = Some (InboxStatus.deleted, None)
       ∧ InboxEngine.edge s InboxStatus.deleted = true)
  ∧ (InboxEngine.edge InboxStatus.pending InboxStatus.processing = true
     ∧ ∀ generatedId now teamId payload,
         inbox.status <$> InboxEngine.apply []
           (InboxEngine.UploadInboxItem generatedId now teamId payload)
         = [Some (InboxStatus.text InboxStatus.pending)])
  ∧ (∀ s, InboxEngine.edge InboxStatus.done s = false)
  ∧ ¬ rtc (λ a b, InboxEngine.edge a b = true)
        InboxStatus.done InboxStatus.analyzing
  ∧ (∀ evs (item : inbox.row),
       inbox.status item = Some (InboxStatus.text InboxStatus.done) →
       inbox.status (InboxEngine.run evs item)
         = Some (InboxStatus.text InboxStatus.done))
  ∧ (∀ (s : list inbox.row) op (i : nat) r, s !! i = Some r →
       ∃ r', InboxEngine.apply s op !! i = Some r' ∧ InboxEngine.moved r r')
  ∧ (∀ (s : list inbox.row) op (i : nat) r',
       s !! i = None → InboxEngine.apply s op !! i = Some r' →
       InboxEngine.entered r')
  ∧ (∀ ops (s : list inbox.row) (i : nat) r a,
       s !! i = Some r → inbox.status r = Some (InboxStatus.text a) →
       ∃ r' b, foldl InboxEngine.apply s ops !! i = Some r'
               ∧ inbox.id r' = inbox.id r
               ∧ inbox.status r' = Some (InboxStatus.text b)
               ∧ rtc (λ a b, InboxEngine.edge a b = true) a b)
  ∧ (∀ ops (s : list inbox.row) (i : nat) r,
       s !! i = Some r →
       inbox.status r = Some (InboxStatus.text InboxStatus.done) →
       ∃ r', foldl InboxEngine.apply s ops !! i = Some r'
             ∧ inbox.id r' = inbox.id r
             ∧ inbox.status r' = Some (InboxStatus.text InboxStatus.done)
             ∧ inbox.status r' ≠ Some (InboxStatus.text InboxStatus.analyzing))
  ∧ (∀ ops (r : inbox.row), r ∈ InboxEngine.runOperations ops →
       ∃ a b, (a = InboxStatus.new ∨ a = InboxStatus.pending)
              ∧ inbox.status r = Some (InboxStatus.text b)
              ∧ rtc (λ a b, InboxEngine.edge a b = true) a b)
  ∧ (∀ (s : list inbox.row) (i : nat) r ev a b link,
       inbox.Consistent s → s !! i = Some r →
       inbox.status r = Some (InboxStatus.text a) →
       InboxEngine.next a ev = Some (b, link) →
       ∃ r', InboxEngine.apply s (InboxEngine.Transition (inbox.id r) ev) !! i
               = Some r'
             ∧ inbox.id r' = inbox.id r
             ∧ inbox.status r' = Some (InboxStatus.text b)).
Proof.
  split.
  { split; [reflexivity|].
    intros s. unfold InboxStatus.values. rewrite !elem_of_cons.
    destruct s; tauto. }
  split.
  { intros ev item item' Hstep.
    apply step_Ok in Hstep as (s & s' & link & Hs & Hnext & ->).
    exists s, s'. split; [exact Hs|]. split; [reflexivity|].
    eapply next_edge, Hnext. }
  split; [intros evs item s; apply run_follows_edges|].
  split; [intros s Hs; destruct s; try discriminate; split; reflexivity|].
  split.
  { split; [reflexivity|]. intros generatedId now teamId payload.
    unfold InboxEngine.apply, inbox.insert, Table.insert.
    rewrite commit_Consistent; [reflexivity|].
    split; [apply NoDup_singleton|].
    unfold inbox.uniqueIndexes. constructor; [|constructor]. constructor. }
  split; [intros s; destruct s; reflexivity|].
  split; [intros H; apply done_is_final in H; discriminate|].
  split.
  { intros evs item Hdone.
    destruct (run_follows_edges evs item InboxStatus.done Hdone) as (s' & Hrun & Hpath).
    apply done_is_final in Hpath as ->. exact Hrun. }
  split; [apply apply_lookup|].
  split; [apply apply_entered|].
  split; [intros ops; apply foldl_apply_path|].
  split.
  { intros ops s i r Hi Hdone.
    destruct (foldl_apply_path ops s i r InboxStatus.done Hi Hdone)
      as (r' & b & Hi' & Hid & Hb & Hpath).
    apply done_is_final in Hpath as ->.
    exists r'. split; [exact Hi'|]. split; [exact Hid|]. split; [exact Hb|].
    rewrite Hb. discriminate. }
  split.
  { intros ops r Hr.
    pose proof (foldl_apply_from_entry ops [] (Forall_nil_2 _)) as Hall.
    rewrite list.Forall_forall in Hall. apply Hall, Hr. }
  intros s i r ev a b link. apply transition_moves.
Qed.

Lemma inbox_status_follows_the_graph_witness :
  let ops := [InboxEngine.IngestInboxItem "item-2" 1705017600000 "team-1"
                "mail-1" Examples.receipt;
              InboxEngine.Transition "item-1" InboxEngine.Extracted;
              InboxEngine.Transition "item-1"
                (InboxEngine.Analyzed InboxEngine.NeedsReview);
              InboxEngine.Transition "item-1" InboxEngine.Dismiss;
              InboxEngine.Transition "item-1" InboxEngine.Delete] in
  ∃ r', foldl InboxEngine.apply [Fixtures.matchedItem] ops !! 0%nat = Some r'
        ∧ inbox.id r' = inbox.id Fixtures.matchedItem
        ∧ inbox.status r' = Some (InboxStatus.text InboxStatus.done)
        ∧ inbox.status r' ≠ Some (InboxStatus.text InboxStatus.analyzing).
Proof.
  cbv zeta.
  apply (proj1 (proj2 (proj2 (proj2 (proj2 (proj2 (proj2 (proj2 (proj2 (proj2
           (proj2 (proj2 inbox_status_follows_the_graph)))))))))))).
  - reflexivity.
  - reflexivity.
Defined.

(** C8: in every [inbox] table that ingestion, manual upload and the
    transitions of the state machine can produce, an item has a
    [transaction_id] only when its status is [done]: an item whose status
    is anything else has none. *)
Theorem inbox_transaction_id_only_when_done :
  ∀ (ops : list InboxEngine.Operation) (r : inbox.row),
    r ∈ InboxEngine.runOperations ops →
    (is_Some (inbox.transactionId r) → inbox.status r = Some "done")
    ∧ (inbox.status r ≠ Some "done" → inbox.transactionId r = None).
Proof.
  intros ops.
  assert (Hall : ∀ s, Forall InboxEngine.linkedOnlyWhenDone s →
            Forall InboxEngine.linkedOnlyWhenDone (foldl InboxEngine.apply s ops)).
  { induction ops as [|op ops IH]; intros s Hs; [exact Hs|].
    simpl. apply IH, apply_linkedOnlyWhenDone, Hs. }
  intros r Hin.
  specialize (Hall [] (Forall_nil_2 _)).
  rewrite list.Forall_forall in Hall. specialize (Hall r Hin).
  split; [exact Hall|].
  intros Hst. destruct (inbox.transactionId r) eqn:Htx; [|reflexivity].
  exfalso. apply Hst, Hall. eauto.
Qed.

Lemma inbox_transaction_id_only_when_done_witness :
  let ops := [InboxEngine.IngestInboxItem "item-1" 1704931200000 "team-1"
                "mail-1" Examples.receipt;
              InboxEngine.Transition "item-1" InboxEngine.Accept;
              InboxEngine.Transition "item-1" InboxEngine.Extracted;
              InboxEngine.Transition "item-1"
                (InboxEngine.Analyzed (InboxEngine.AutoConfirm "tx-row-1"))] in
  ∃ r, InboxEngine.runOperations ops = [r]
       ∧ inbox.transactionId r = Some "tx-row-1"
       ∧ inbox.status r = Some "done".
Proof.
  cbv zeta. eexists. split; [vm_compute; reflexivity|].
  split; [reflexivity|].
  eapply (proj1 (inbox_transaction_id_only_when_done _ _ _)).
  simpl. eauto.
  Unshelve.
  - exact [InboxEngine.IngestInboxItem "item-1" 1704931200000 "team-1"
             "mail-1" Examples.receipt;
           InboxEngine.Transition "item-1" InboxEngine.Accept;
           InboxEngine.Transition "item-1" InboxEngine.Extracted;
           InboxEngine.Transition "item-1"
             (InboxEngine.Analyzed (InboxEngine.AutoConfirm "tx-row-1"))].
  - vm_compute. apply list_elem_of_singleton. reflexivity.
Defined.

(** ** Match suggestions *)

Section ReconciliationFacts.
Import transactionMatchSuggestions Reconciliation.

Variable similarity : inbox.row → transactions.row → option number.
Variable inWindow : inbox.row → transactions.row → bool.
Variable T_review : number.

Local Abbreviation scored := (scored similarity inWindow).
Local Abbreviation reviewable := (reviewable similarity inWindow T_review).
Local Abbreviation suggestionsFor := (suggestionsFor similarity inWindow T_review).
Local Abbreviation analyze := (analyze similarity inWindow T_review).
Local Abbreviation others item := (filter (λ r, inboxId r ≠ inbox.id item)).
Local Abbreviation own item := (filter (λ r, inboxId r = inbox.id item)).





Lemma imap_as_fmap {A B} (g : nat → A → B) (f : A → B) (l : list A) :
  (∀ k x, g k x = f x) → imap g l = f <$> l.
Proof.
  revert g. induction l as [|a l IH]; intros g Hg; [reflexivity|].
  csimpl. rewrite Hg. f_equal. apply IH. intros k x. apply Hg.
Qed.

Lemma content_suggestionsFor generatedIds now (item : inbox.row)
    (txs : list transactions.row) :
  content <$> suggestionsFor generatedIds now item txs
    = (λ p, (transactions.id p.1, inbox.id item, p.2)) <$> reviewable item txs.
Proof.
  unfold Reconciliation.suggestionsFor. rewrite fmap_imap.
  apply imap_as_fmap. reflexivity.
Qed.













End ReconciliationFacts.




(** * Further properties of the code *)

(** ** Tax: signs, values that are not numbers, and the rates 0 and 100 *)

Section TaxFacts.
Lemma binary_round_aux_negb s m e l :
  binary_round_aux prec emax (negb s) m e l
    = SFopp (binary_round_aux prec emax s m e l).
Proof.
  unfold binary_round_aux.
  destruct (shr_fexp prec emax m e l) as [mrs' e'].
  destruct (shr_fexp prec emax _ e' loc_Exact) as [mrs'' e''].
  destruct (shr_m mrs''); [reflexivity| |reflexivity].
  destruct (e'' <=? emax - prec); reflexivity.
Qed.

Lemma mul_negate_l x y : mul (negate x) y = negate (mul x y).
Proof.
  destruct x as [sx|sx| |sx mx ex], y as [sy|sy| |sy my ey]; simpl;
    try reflexivity; try (destruct sx, sy; reflexivity).
  rewrite <- binary_round_aux_negb. destruct sx, sy; reflexivity.
Qed.

Lemma mul_negate_r x y : mul x (negate y) = negate (mul x y).
Proof.
  destruct x as [sx|sx| |sx mx ex], y as [sy|sy| |sy my ey]; simpl;
    try reflexivity; try (destruct sx, sy; reflexivity).
  rewrite <- binary_round_aux_negb. destruct sx, sy; reflexivity.
Qed.

Lemma div_negate_l x y : div (negate x) y = negate (div x y).
Proof.
  destruct x as [sx|sx| |sx mx ex], y as [sy|sy| |sy my ey]; simpl;
    try reflexivity; try (destruct sx, sy; reflexivity).
  unfold div, SFdiv. simpl.
  destruct (SFdiv_core_binary prec emax (Z.pos mx) ex (Z.pos my) ey) as [[mz ez] lz].
  rewrite <- binary_round_aux_negb. destruct sx, sy; reflexivity.
Qed.

Lemma mul_2_52 (m : positive) :
  (m * 4503599627370496)%positive = Nat.iter 52 xO m.
Proof. rewrite Pos.mul_comm. reflexivity. Qed.

Lemma digits2_pos_iter (n : nat) (m : positive) :
  Z.pos (digits2_pos (Nat.iter n xO m)) = Z.pos (digits2_pos m) + Z.of_nat n.
Proof.
  induction n as [|n IH]; [simpl; lia|].
  rewrite Nat.iter_succ. cbn [digits2_pos]. rewrite Pos2Z.inj_succ, IH. lia.
Qed.

Lemma iter_shr_1 (n : nat) (p : positive) :
  Nat.iter n shr_1
    {| shr_m := Z.pos (Nat.iter n xO p); shr_r := false; shr_s := false |}
  = {| shr_m := Z.pos p; shr_r := false; shr_s := false |}.
Proof.
  induction n as [|n IH]; [reflexivity|].
  rewrite Nat.iter_succ_r. simpl. exact IH.
Qed.

(** Multiplying a binary64 value by [1] rounds nothing away. *)
Lemma mul_one_finite s m e :
  bounded prec emax m e = true →
  mul (S754_finite s m e) (S754_finite false 4503599627370496 (-52))
    = S754_finite s m e.
Proof.
  intros Hb. apply andb_prop in Hb as [Hcanon Hle].
  apply Z.eqb_eq in Hcanon.
  unfold mul, SFmul. rewrite xorb_false_r.
  unfold binary_round_aux, shr_fexp.
  rewrite mul_2_52. unfold Zdigits2 at 1.
  rewrite digits2_pos_iter.
  replace (Z.pos (digits2_pos m) + Z.of_nat 52 + (e + -52))
    with (Z.pos (digits2_pos m) + e) by lia.
  rewrite Hcanon.
  replace (e - (e + -52)) with (Z.pos 52) by lia.
  unfold shr at 1.
  change (shr_record_of_loc ?a loc_Exact) with (Build_shr_record a false false).
  change (SpecFloat.iter_pos shr_1 52 ?x) with (Nat.iter 52 shr_1 x).
  rewrite iter_shr_1.
  cbn [shr_m loc_of_shr_record round_nearest_even Zdigits2 shr_record_of_loc].
  replace (e + -52 + 52) with e by lia.
  rewrite Hcanon, Z.sub_diag. cbn [shr shr_m].
  rewrite Hle. reflexivity.
Qed.

Lemma hundred_percent : div (of_Z 100) (of_Z 100) = S754_finite false 4503599627370496 (-52).
Proof. vm_compute. reflexivity. Qed.
End TaxFacts.

(** X1: the tax changes sign with the amount and with the rate:
    [calculateTax(-amount, rate)] and [calculateTax(amount, -rate)] are both
    [-calculateTax(amount, rate)], for all numbers, with no rounding
    difference between the two sides. *)
Theorem calculateTax_is_odd :
  ∀ amount rate,
    calculateTax (negate amount) rate = negate (calculateTax amount rate)
    ∧ calculateTax amount (negate rate) = negate (calculateTax amount rate)
    ∧ calculateTax (negate amount) (negate rate) = calculateTax amount rate.
Proof.
  intros amount rate. unfold calculateTax.
  split; [apply mul_negate_l|].
  split; [rewrite div_negate_l; apply mul_negate_r|].
  rewrite div_negate_l, mul_negate_l, mul_negate_r.
  destruct (mul amount (div rate (of_Z 100))) as [[]|[]| |[] m e]; reflexivity.
Qed.

(** X2: neither function turns a value that is not a finite number into
    one: a [NaN] amount or rate gives [NaN] from both, and an infinite
    amount gives an infinite or [NaN] result from both. *)
Theorem tax_of_non_finite_input :
  ∀ amount rate,
    (amount = NaN ∨ rate = NaN →
       calculateTax amount rate = NaN ∧ calculateAmountWithTax amount rate = NaN)
    ∧ (isFinite amount = false →
         isFinite (calculateTax amount rate) = false
         ∧ isFinite (calculateAmountWithTax amount rate) = false).
Proof.
  intros amount rate. split.
  - intros [-> | ->].
    + split; reflexivity.
    + unfold calculateAmountWithTax, calculateTax.
      destruct amount as [[]|[]| |[] m e]; split; reflexivity.
  - intros Hinf. unfold calculateAmountWithTax, calculateTax.
    destruct amount as [s|s| |s m e]; try discriminate.
    + destruct (div rate (of_Z 100)) as [s'|s'| |s' m' e'];
        split; try reflexivity; destruct s, s'; reflexivity.
    + split; reflexivity.
Qed.

Lemma tax_of_non_finite_input_witness :
  (calculateTax NaN (of_Z 25) = NaN ∧ calculateAmountWithTax NaN (of_Z 25) = NaN)
  ∧ (isFinite (calculateTax Infinity (of_Z 25)) = false
     ∧ isFinite (calculateAmountWithTax Infinity (of_Z 25)) = false).
Proof.
  split.
  - apply (proj1 (tax_of_non_finite_input NaN (of_Z 25))). left. reflexivity.
  - apply (proj2 (tax_of_non_finite_input Infinity (of_Z 25))). reflexivity.
Defined.

(** X3: at a rate of 100 the tax of a binary64 amount is the amount itself,
    exactly, and the amount with tax is [amount + amount]. *)
Theorem calculateTax_at_100 :
  ∀ amount, isBinary64 amount →
    calculateTax amount (of_Z 100) = amount
    ∧ calculateAmountWithTax amount (of_Z 100) = add amount amount.
Proof.
  intros amount Hvalid.
  assert (Htax : calculateTax amount (of_Z 100) = amount).
  { unfold calculateTax. rewrite hundred_percent.
    destruct amount as [s|s| |s m e].
    - destruct s; reflexivity.
    - destruct s; reflexivity.
    - reflexivity.
    - apply mul_one_finite, Hvalid. }
  split; [exact Htax|].
  unfold calculateAmountWithTax. rewrite Htax. reflexivity.
Qed.

Lemma calculateTax_at_100_witness :
  calculateTax (of_decimal 1999 2) (of_Z 100) = of_decimal 1999 2
  ∧ calculateAmountWithTax (of_decimal 1999 2) (of_Z 100)
    = add (of_decimal 1999 2) (of_decimal 1999 2).
Proof.
  apply (calculateTax_at_100 (of_decimal 1999 2)). reflexivity.
Defined.

(** X4: at a rate of 0 the tax of a finite amount is zero ([=== 0]), and
    the tax of an infinite amount is [NaN]. *)
Theorem calculateTax_at_0 :
  ∀ amount,
    (isFinite amount = true →
       strictEquals (calculateTax amount (of_Z 0)) (of_Z 0) = true)
    ∧ (amount = Infinity ∨ amount = negate Infinity →
         calculateTax amount (of_Z 0) = NaN).
Proof.
  intros amount. split.
  - intros Hfin. destruct amount as [[]|[]| |[] m e]; try discriminate; reflexivity.
  - intros [-> | ->]; reflexivity.
Qed.

Lemma calculateTax_at_0_witness :
  strictEquals (calculateTax (of_decimal 1999 2) (of_Z 0)) (of_Z 0) = true
  ∧ calculateTax Infinity (of_Z 0) = NaN.
Proof.
  split.
  - apply (proj1 (calculateTax_at_0 (of_decimal 1999 2))). reflexivity.
  - apply (proj2 (calculateTax_at_0 Infinity)). left. reflexivity.
Defined.

(** ** Currency codes *)

(** X5: every supported currency code is made of exactly three upper-case
    letters A to Z, so a text of any other length, the empty text included,
    is not a supported currency; and no code is listed twice. *)
Theorem supported_currencies_are_three_capitals :
  (∀ c : string,
      isSupportedCurrency c = true →
      String.length c = 3%nat
      ∧ Forall (λ ch, (65 ≤ nat_of_ascii ch ≤ 90)%nat) (String.list_ascii_of_string c))
  ∧ (∀ c : string, String.length c ≠ 3%nat → isSupportedCurrency c = false)
  ∧ NoDup currencies.
Proof.
  assert (Hshape : ∀ c : string,
            isSupportedCurrency c = true →
            String.length c = 3%nat
            ∧ Forall (λ ch, (65 ≤ nat_of_ascii ch ≤ 90)%nat) (String.list_ascii_of_string c)).
  { intros c Hc. unfold isSupportedCurrency, currencies in Hc.
    rewrite bool_decide_eq_true, !elem_of_cons, elem_of_nil in Hc.
    repeat (destruct Hc as [->|Hc];
            [split; [reflexivity|repeat constructor; vm_compute; lia]|]).
    destruct Hc. }
  split; [exact Hshape|]. split.
  - intros c Hlen. destruct (isSupportedCurrency c) eqn:Hc; [|reflexivity].
    exfalso. apply Hlen, (Hshape c Hc).
  - apply (bool_decide_unpack _). vm_compute. exact I.
Qed.

Lemma supported_currencies_are_three_capitals_witness :
  (String.length "SEK" = 3%nat
   ∧ Forall (λ ch, (65 ≤ nat_of_ascii ch ≤ 90)%nat) (String.list_ascii_of_string "SEK"))
  ∧ isSupportedCurrency "EURO" = false.
Proof.
  split.
  - apply (proj1 supported_currencies_are_three_capitals "SEK"). reflexivity.
  - apply (proj1 (proj2 supported_currencies_are_three_capitals) "EURO").
    vm_compute. lia.
Defined.

(** ** What an insert needs to succeed *)

(** X6: an insert into [transactions] succeeds exactly when the amount of
    the new row is a finite number and neither its [id] nor its
    [internal_id] is already stored, whatever the team of the row that
    holds the [internal_id]; it then appends the row as the table stores
    it: with the keys given and an amount equal to the one given, [-0]
    stored as [0]. *)
Theorem transactions_insert_succeeds_iff :
  ∀ (r : transactions.row) (t : list transactions.row),
    transactions.Consistent t →
    (∀ t', transactions.insert r t = Some t'
           ↔ ∃ r', transactions.stored r = Some r' ∧ t' = (t ++ [r'])%list
                   ∧ (transactions.id r ∉ transactions.id <$> t)
                   ∧ (transactions.internalId r ∉ transactions.internalId <$> t))
    ∧ (is_Some (transactions.insert r t)
       ↔ isFinite (transactions.amount r) = true
         ∧ (transactions.id r ∉ transactions.id <$> t)
         ∧ (transactions.internalId r ∉ transactions.internalId <$> t))
    ∧ (transactions.insert r t = None
       ↔ isFinite (transactions.amount r) = false
         ∨ (transactions.id r ∈ transactions.id <$> t)
         ∨ (transactions.internalId r ∈ transactions.internalId <$> t))
    ∧ (∀ r', transactions.stored r = Some r' →
         strictEquals (transactions.amount r') (transactions.amount r) = true
         ∧ transactions.amount r' ≠ S754_zero true
         ∧ transactions.id r' = transactions.id r
         ∧ transactions.internalId r' = transactions.internalId r
         ∧ transactions.teamId r' = transactions.teamId r).
Proof.
  intros r t Hc.
  assert (Hiff : ∀ t', transactions.insert r t = Some t'
            ↔ ∃ r', transactions.stored r = Some r' ∧ t' = (t ++ [r'])%list
                    ∧ (transactions.id r ∉ transactions.id <$> t)
                    ∧ (transactions.internalId r ∉ transactions.internalId <$> t)).
  { intros t'. rewrite transactions_insert_Some. split.
    - intros (r' & Hr' & -> & Hc'). exists r'.
      split; [exact Hr'|]. split; [reflexivity|].
      apply Consistent_snoc in Hc' as (_ & Hid & Hix).
      unfold transactions.uniqueIndexes in Hix.
      apply Forall_singleton, fresh_required in Hix.
      unfold transactions.primaryKey in Hid.
      destruct (stored_keys _ _ Hr') as (Hk1 & Hk2 & _).
      rewrite Hk1 in Hid. rewrite Hk2 in Hix. auto.
    - intros (r' & Hr' & -> & Hid & Hix). exists r'.
      split; [exact Hr'|]. split; [reflexivity|].
      destruct (stored_keys _ _ Hr') as (Hk1 & Hk2 & _).
      apply Consistent_snoc. split; [exact Hc|]. split.
      + unfold transactions.primaryKey. rewrite Hk1. exact Hid.
      + unfold transactions.uniqueIndexes.
        apply Forall_singleton, fresh_required. rewrite Hk2. exact Hix. }
  assert (Hsome : is_Some (transactions.insert r t)
            ↔ isFinite (transactions.amount r) = true
              ∧ (transactions.id r ∉ transactions.id <$> t)
              ∧ (transactions.internalId r ∉ transactions.internalId <$> t)).
  { rewrite <- stored_is_Some. split.
    - intros [t' (r' & Hr' & _ & Hid & Hix)%Hiff]. eauto.
    - intros ([r' Hr'] & Hid & Hix). exists (t ++ [r'])%list.
      apply Hiff. eauto 6. }
  split; [exact Hiff|]. split; [exact Hsome|]. split.
  - rewrite eq_None_not_Some, Hsome. split.
    + intros Hno.
      destruct (isFinite (transactions.amount r)) eqn:Hfin; [|auto].
      destruct (decide (transactions.id r ∈ transactions.id <$> t)); [auto|].
      destruct (decide (transactions.internalId r ∈ transactions.internalId <$> t));
        [auto|].
      exfalso. apply Hno. auto.
    + intros [Hfin|[Hin|Hin]] (Hfin' & Hid & Hix);
        [congruence|exact (Hid Hin)|exact (Hix Hin)].
  - intros r' Hr'.
    destruct (stored_keys _ _ Hr') as (Hk1 & Hk2 & Hk3).
    apply stored_amount, bind_strictEquals in Hr' as [Heq Hzero]. auto.
Qed.

Lemma transactions_insert_succeeds_iff_witness :
  transactions.insert Fixtures.categorised [Examples.transaction] = None.
Proof.
  apply (proj1 (proj2 (proj2 (transactions_insert_succeeds_iff Fixtures.categorised
                  [Examples.transaction]
                  ltac:(apply (bool_decide_unpack _); vm_compute; exact I))))).
  right. left. apply (bool_decide_unpack _). vm_compute. exact I.
Defined.



(** X8: an insert into [transactionMatchSuggestions] succeeds exactly when
    the score of the new row is a finite number and its [id] is not stored
    yet; it then appends the row with the score as the column holds it.
    The table takes a second row for a [(transaction_id, inbox_id)] pair it
    already holds. *)
Theorem suggestions_insert_succeeds_iff :
  ∀ (r : transactionMatchSuggestions.row) (t : list transactionMatchSuggestions.row),
    transactionMatchSuggestions.Consistent t →
    (∀ t', transactionMatchSuggestions.insert r t = Some t'
           ↔ ∃ r', transactionMatchSuggestions.stored r = Some r'
                   ∧ t' = (t ++ [r'])%list
                   ∧ transactionMatchSuggestions.id r
                       ∉ transactionMatchSuggestions.id <$> t)
    ∧ (is_Some (transactionMatchSuggestions.insert r t)
       ↔ isFinite (transactionMatchSuggestions.score r) = true
         ∧ transactionMatchSuggestions.id r ∉ transactionMatchSuggestions.id <$> t)
    ∧ (∀ r0 : transactionMatchSuggestions.row,
         r0 ∈ t →
         isFinite (transactionMatchSuggestions.score r) = true →
         transactionMatchSuggestions.id r ∉ transactionMatchSuggestions.id <$> t →
         transactionMatchSuggestions.transactionId r
           = transactionMatchSuggestions.transactionId r0 →
         transactionMatchSuggestions.inboxId r
           = transactionMatchSuggestions.inboxId r0 →
         is_Some (transactionMatchSuggestions.insert r t)).
Proof.
  intros r t Hc.
  assert (Hiff : ∀ t', transactionMatchSuggestions.insert r t = Some t'
            ↔ ∃ r', transactionMatchSuggestions.stored r = Some r'
                    ∧ t' = (t ++ [r'])%list
                    ∧ transactionMatchSuggestions.id r
                        ∉ transactionMatchSuggestions.id <$> t).
  { intros t'. unfold transactionMatchSuggestions.insert, Table.insert.
    destruct (transactionMatchSuggestions.stored r) as [r'|] eqn:Hr'; simpl.
    - destruct (suggestion_stored_Some _ _ Hr') as (Hid & _).
      split.
      + intros [-> Hc']%commit_Some. exists r'.
        split; [reflexivity|]. split; [reflexivity|].
        apply Consistent_snoc in Hc' as (_ & Hfresh & _).
        unfold transactionMatchSuggestions.primaryKey in Hfresh.
        rewrite Hid in Hfresh. exact Hfresh.
      + intros (? & [= <-] & -> & Hfresh). apply commit_Consistent.
        apply Consistent_snoc. split; [exact Hc|]. split; [|constructor].
        unfold transactionMatchSuggestions.primaryKey. rewrite Hid. exact Hfresh.
    - split; [discriminate|]. intros (? & ? & _). discriminate. }
  assert (Hsome : is_Some (transactionMatchSuggestions.insert r t)
            ↔ isFinite (transactionMatchSuggestions.score r) = true
              ∧ transactionMatchSuggestions.id r
                  ∉ transactionMatchSuggestions.id <$> t).
  { rewrite <- suggestion_stored_is_Some. split.
    - intros [t' (r' & Hr' & _ & Hid)%Hiff]. eauto.
    - intros ([r' Hr'] & Hid). exists (t ++ [r'])%list. apply Hiff. eauto. }
  split; [exact Hiff|]. split; [exact Hsome|].
  intros r0 _ Hfin Hfresh _ _. apply Hsome. auto.
Qed.

Lemma suggestions_insert_succeeds_iff_witness :
  let first := Examples.suggestion "suggestion-a" 1704931200000 in
  let again := Examples.suggestion "suggestion-b" 1705017600000 in
  is_Some (transactionMatchSuggestions.insert again [first]).
Proof.
  cbv zeta.
  apply (proj2 (proj2 (suggestions_insert_succeeds_iff
                  (Examples.suggestion "suggestion-b" 1705017600000)
                  [Examples.suggestion "suggestion-a" 1704931200000]
                  ltac:(apply (bool_decide_unpack _); vm_compute; exact I)))
           (Examples.suggestion "suggestion-a" 1704931200000)).
  - apply list_elem_of_singleton. reflexivity.
  - reflexivity.
  - apply (bool_decide_unpack _). vm_compute. exact I.
  - reflexivity.
  - reflexivity.
Defined.

(** ** Deleting a row frees its keys *)

Section DeleteFacts.
Context {R : Type}.
Variable primaryKey : R → string.
Variable uniqueIndexes : list (R → option string).

Local Abbreviation Consistent := (Table.Consistent primaryKey uniqueIndexes).
Local Abbreviation without old t :=
  (Table.delete (λ x, primaryKey x = primaryKey old) t).




End DeleteFacts.





(** ** Relations *)

Section RelationFacts.
Context {Source Target Key : Type} `{EqDecision Key}.
Variable rendered : Target → Target.
Variable fields : Source → option Key.
Variable references : Target → Key.

Lemma one_null (r : Source) (t : list Target) :
  fields r = None → Relations.one rendered fields references r t = None.
Proof. intros Hnull. unfold Relations.one. rewrite Hnull. reflexivity. Qed.

Lemma one_Some (r : Source) (t : list Target) (x : Target) :
  Relations.one rendered fields references r t = Some x →
  ∃ y, y ∈ t ∧ x = rendered y ∧ fields r = Some (references y).
Proof.
  unfold Relations.one. destruct (fields r) as [k|]; [|discriminate]. simpl.
  destruct (list_find _ t) as [[i y]|] eqn:Hfind; [|discriminate].
  intros [= <-]. apply list_find_Some in Hfind as (Hi & Hk & _).
  exists y. split; [eapply list_elem_of_lookup_2, Hi|].
  split; [reflexivity|]. f_equal. symmetry. exact Hk.
Qed.

Lemma one_found (r : Source) (t : list Target) (y : Target) :
  NoDup (references <$> t) → y ∈ t → fields r = Some (references y) →
  Relations.one rendered fields references r t = Some (rendered y).
Proof.
  intros Hnd Hy Hr. unfold Relations.one. rewrite Hr. simpl.
  destruct (list_find_elem_of (λ z, references z = references y) t y Hy eq_refl)
    as [[i z] Hfind].
  rewrite Hfind. simpl. do 2 f_equal.
  apply list_find_Some in Hfind as (Hi & Hk & _).
  apply list_elem_of_lookup_1 in Hy as [j Hj].
  rewrite list_fmap_alt in Hnd.
  assert (i = j) as ->.
  { eapply (NoDup_omap_lookup _ t Hnd i j z y (references y)); eauto.
    simpl. f_equal. exact Hk. }
  congruence.
Qed.
End RelationFacts.

(** X11: the [transaction] relation of an inbox item gives nothing when
    [transaction_id] is [NULL] or no transaction has that [id]; what it
    gives is the stored transaction with exactly that [id], of whatever
    team, with its [real] columns as the database renders them and its
    [id] as stored; in particular it finds the row an insert has just
    stored. *)
Theorem inbox_transaction_relation :
  ∀ (render : number → number) (item : inbox.row) (txs : list transactions.row),
    (inbox.transactionId item = None →
       inboxRelations.transaction render item txs = None)
    ∧ (∀ tx', inboxRelations.transaction render item txs = Some tx' →
         inbox.transactionId item = Some (transactions.id tx')
         ∧ ∃ tx, tx ∈ txs ∧ tx' = transactions.rendered render tx
                 ∧ transactions.id tx = transactions.id tx')
    ∧ (∀ k, inbox.transactionId item = Some k → k ∉ transactions.id <$> txs →
         inboxRelations.transaction render item txs = None)
    ∧ (∀ tx, transactions.Consistent txs → tx ∈ txs →
         inbox.transactionId item = Some (transactions.id tx) →
         inboxRelations.transaction render item txs
           = Some (transactions.rendered render tx))
    ∧ (∀ tx txs', transactions.insert tx txs = Some txs' →
         inbox.transactionId item = Some (transactions.id tx) →
         ∃ tx0, transactions.stored tx = Some tx0
                ∧ inboxRelations.transaction render item txs'
                  = Some (transactions.rendered render tx0)).
Proof.
  intros render item txs. unfold inboxRelations.transaction.
  split; [apply one_null|].
  split.
  { intros tx' (tx & Hin & -> & Hid)%one_Some.
    split; [exact Hid|]. exists tx. auto. }
  split.
  { intros k Hk Hnone.
    destruct (Relations.one (transactions.rendered render) inbox.transactionId
                transactions.id item txs) as [tx'|] eqn:Hone; [|reflexivity].
    apply one_Some in Hone as (tx & Hin & _ & Heq). exfalso. apply Hnone.
    rewrite Hk in Heq. injection Heq as ->.
    apply list_elem_of_fmap. eauto. }
  split.
  { intros tx [Hpk _] Hin Hid. apply one_found; assumption. }
  intros tx txs' Hins Hid.
  apply transactions_insert_Some in Hins as (tx0 & Htx0 & -> & [Hpk _]).
  exists tx0. split; [exact Htx0|].
  apply one_found; [exact Hpk| |].
  - apply elem_of_app. right. apply list_elem_of_singleton. reflexivity.
  - rewrite Hid. f_equal. symmetry. apply (stored_keys _ _ Htx0).
Qed.

Lemma inbox_transaction_relation_witness :
  (∃ tx0, transactions.stored Fixtures.summed = Some tx0
          ∧ inboxRelations.transaction Fixtures.render Fixtures.matchedItem
              ([] ++ [Fixtures.summed])
            = Some (transactions.rendered Fixtures.render tx0))
  ∧ inboxRelations.transaction Fixtures.render Examples.inboxItem
      [Examples.transaction] = None.
Proof.
  split.
  - apply (proj2 (proj2 (proj2 (proj2
             (inbox_transaction_relation Fixtures.render Fixtures.matchedItem []))))
             Fixtures.summed).
    + vm_compute. reflexivity.
    + reflexivity.
  - apply (proj1 (inbox_transaction_relation Fixtures.render Examples.inboxItem
                    [Examples.transaction])).
    reflexivity.
Defined.

(** X12: the [category] relation of a transaction stays inside the team:
    what it gives is a stored category with the transaction's [team_id] and
    [category_slug], with its [vat] as the database renders it; it gives
    nothing for a transaction without a slug; and with the primary key
    [(team_id, slug)] in force it finds the category of the transaction's
    team even when other teams have a category with the same slug. *)
Theorem transaction_category_relation :
  ∀ (render : number → number) (tx : transactions.row)
    (cats : list transactionCategories.row),
    (transactions.categorySlug tx = None →
       transactionsRelations.category render tx cats = None)
    ∧ (∀ c', transactionsRelations.category render tx cats = Some c' →
         transactionCategories.teamId c' = transactions.teamId tx
         ∧ transactions.categorySlug tx = Some (transactionCategories.slug c')
         ∧ ∃ c, c ∈ cats ∧ c' = transactionCategories.rendered render c)
    ∧ (∀ c, transactionCategories.Consistent cats → c ∈ cats →
         transactionCategories.teamId c = transactions.teamId tx →
         transactions.categorySlug tx = Some (transactionCategories.slug c) →
         transactionsRelations.category render tx cats
           = Some (transactionCategories.rendered render c)).
Proof.
  intros render tx cats. unfold transactionsRelations.category.
  split; [intros Hnull; apply one_null; rewrite Hnull; reflexivity|].
  split.
  - intros c' (c & Hin & -> & Heq)%one_Some.
    destruct (transactions.categorySlug tx) as [slug|]; [|discriminate].
    injection Heq as -> ->. simpl. eauto.
  - intros c Hpk Hin Hteam Hslug. apply one_found; [|exact Hin|].
    + unfold transactionCategories.Consistent, transactionCategories.primaryKey in Hpk.
      eapply (NoDup_fmap_1 (λ p : string * string, (p.2, p.1))).
      rewrite <- list_fmap_compose. exact Hpk.
    + rewrite Hslug, Hteam. reflexivity.
Qed.

Lemma transaction_category_relation_witness :
  transactionsRelations.category Fixtures.render Fixtures.categorised
    [Fixtures.category "team-2" "rent"; Fixtures.category "team-1" "rent"]
  = Some (transactionCategories.rendered Fixtures.render
            (Fixtures.category "team-1" "rent")).
Proof.
  apply (proj2 (proj2 (transaction_category_relation Fixtures.render
                         Fixtures.categorised _))).
  - apply (bool_decide_unpack _). vm_compute. exact I.
  - right. left.
  - reflexivity.
  - reflexivity.
Defined.

(** X13: the [transactions] relation of a team gives exactly the stored
    transactions whose [team_id] is the team's [id], each with its [real]
    columns as the database renders them, in stored order; two teams with
    different [id]s never get a transaction in common; and for each
    transaction it gives, the [team] relation of that transaction leads
    back to the team. *)
Theorem team_transactions_relation :
  (∀ render (team : teams.row) (txs : list transactions.row) tx',
      tx' ∈ teamsRelations.transactions render team txs
      ↔ ∃ tx, tx ∈ txs ∧ transactions.teamId tx = teams.id team
              ∧ tx' = transactions.rendered render tx)
  ∧ (∀ render (team : teams.row) (txs : list transactions.row),
       transactions.id <$> teamsRelations.transactions render team txs
         `sublist_of` transactions.id <$> txs)
  ∧ (∀ render (team1 team2 : teams.row) (txs : list transactions.row) tx',
       teams.id team1 ≠ teams.id team2 →
       tx' ∈ teamsRelations.transactions render team1 txs →
       tx' ∉ teamsRelations.transactions render team2 txs)
  ∧ (∀ render (ts : list teams.row) (team : teams.row)
       (txs : list transactions.row) tx',
       teams.Consistent ts → team ∈ ts →
       tx' ∈ teamsRelations.transactions render team txs →
       transactionsRelations.team tx' ts = Some team).
Proof.
  assert (Hmem : ∀ render (team : teams.row) (txs : list transactions.row) tx',
            tx' ∈ teamsRelations.transactions render team txs
            ↔ ∃ tx, tx ∈ txs ∧ transactions.teamId tx = teams.id team
                    ∧ tx' = transactions.rendered render tx).
  { intros render team txs tx'. unfold teamsRelations.transactions, Relations.many.
    rewrite list_elem_of_fmap. split.
    - intros (tx & -> & [[= Ht] Hin]%list_elem_of_filter). eauto.
    - intros (tx & Hin & Ht & ->). exists tx. split; [reflexivity|].
      apply list_elem_of_filter. split; [rewrite Ht; reflexivity|exact Hin]. }
  split; [exact Hmem|]. split; [|split].
  - intros render team txs. unfold teamsRelations.transactions, Relations.many.
    rewrite <- list_fmap_compose.
    apply (fmap_sublist transactions.id), sublist_filter.
  - intros render team1 team2 txs tx' Hne
      (tx1 & _ & H1 & ->)%Hmem (tx2 & _ & H2 & Heq)%Hmem.
    apply (f_equal transactions.teamId) in Heq. simpl in Heq. congruence.
  - intros render ts team txs tx' [Hpk _] Hin (tx & _ & Hteam & ->)%Hmem.
    unfold transactionsRelations.team.
    apply (one_found (λ t : teams.row, t)); [exact Hpk|exact Hin|].
    simpl. rewrite Hteam. reflexivity.
Qed.

Lemma team_transactions_relation_witness :
  (transactions.rendered Fixtures.render Fixtures.summed
     ∉ teamsRelations.transactions Fixtures.render (Examples.team "team-2" None)
         [Fixtures.summed])
  ∧ transactionsRelations.team
      (transactions.rendered Fixtures.render Fixtures.summed) Examples.twoTeams
    = Some (Examples.team "team-1" (Some 7)).
Proof.
  assert (Hin : transactions.rendered Fixtures.render Fixtures.summed
                  ∈ teamsRelations.transactions Fixtures.render
                      (Examples.team "team-1" (Some 7)) [Fixtures.summed]).
  { apply (proj2 (proj1 team_transactions_relation _ _ _ _)).
    exists Fixtures.summed.
    split; [apply list_elem_of_singleton; reflexivity|]. split; reflexivity. }
  split.
  - apply (proj1 (proj2 (proj2 team_transactions_relation)) Fixtures.render
             (Examples.team "team-1" (Some 7)) (Examples.team "team-2" None));
      [discriminate|exact Hin].
  - apply (proj2 (proj2 (proj2 team_transactions_relation)) Fixtures.render
             Examples.twoTeams _ [Fixtures.summed]).
    + apply (bool_decide_unpack _). vm_compute. exact I.
    + left.
    + exact Hin.
Defined.

(** ** Connection pool statistics *)

(** X14: [getConnectionPoolStats] never reports an empty region or
    instance: each is the environment variable when that is set to a
    non-empty text, and the fallback ([unknown], [local]) when it is unset
    or empty; the environment has no bearing on the pools, the summary or
    the message, and no pool is ever reported exhausted. *)
Theorem connection_pool_stats_fallbacks :
  ∀ (env : string → option string) (iso : string),
    let stats := client.getConnectionPoolStats env iso in
    (client.region stats ≠ "" ∧ client.instance stats ≠ "")
    ∧ (∀ v, env "FLY_REGION" = Some v → v ≠ "" → client.region stats = v)
    ∧ (env "FLY_REGION" = None ∨ env "FLY_REGION" = Some "" →
         client.region stats = "unknown")
    ∧ (∀ v, env "FLY_ALLOC_ID" = Some v → v ≠ "" → client.instance stats = v)
    ∧ (env "FLY_ALLOC_ID" = None ∨ env "FLY_ALLOC_ID" = Some "" →
         client.instance stats = "local")
    ∧ (∀ env' iso',
         client.pools (client.getConnectionPoolStats env' iso') = client.pools stats
         ∧ client.summary (client.getConnectionPoolStats env' iso')
           = client.summary stats
         ∧ client.message (client.getConnectionPoolStats env' iso')
           = client.message stats)
    ∧ client.hasExhaustedPools (client.summary stats) = false
    ∧ client.timestamp stats = iso.
Proof.
  intros env iso stats. subst stats. simpl.
  assert (Hne : ∀ a b, b ≠ "" → client.orElse a b ≠ "").
  { intros [v|] b Hb; simpl; [case_decide|]; assumption. }
  split; [split; apply Hne; discriminate|].
  split; [intros v -> Hv; simpl; rewrite decide_False by exact Hv; reflexivity|].
  split; [intros [-> | ->]; reflexivity|].
  split; [intros v -> Hv; simpl; rewrite decide_False by exact Hv; reflexivity|].
  split; [intros [-> | ->]; reflexivity|].
  split; [intros; split; [|split]; reflexivity|].
  split; reflexivity.
Qed.

Lemma connection_pool_stats_fallbacks_witness :
  client.region (client.getConnectionPoolStats Fixtures.env "2024-01-10T08:00:00.000Z")
    = "fra"
  ∧ client.instance
      (client.getConnectionPoolStats Fixtures.env "2024-01-10T08:00:00.000Z")
    = "local".
Proof.
  pose proof (connection_pool_stats_fallbacks Fixtures.env
                "2024-01-10T08:00:00.000Z") as H.
  cbv zeta in H. destruct H as (_ & Hregion & _ & _ & Hinstance & _).
  split.
  - apply Hregion; [reflexivity|discriminate].
  - apply Hinstance. right. reflexivity.
Defined.

(** ** The default date of a tracker entry *)

Section DateFacts.
Import trackerEntries.

Lemma split_head (separator : Ascii.ascii) (s : string) :
  ∃ piece pieces rest,
    split separator s = piece :: pieces
    ∧ contains separator piece = false
    ∧ s = String.append piece rest
    ∧ (contains separator s = false → piece = s ∧ pieces = []).
Proof.
  induction s as [|c s (piece & pieces & rest & Hsplit & Hfree & Hs & Hwhole)].
  - exists EmptyString, [], EmptyString. auto.
  - simpl. destruct (Ascii.eqb c separator) eqn:Hc.
    + exists EmptyString, (split separator s), (String c s).
      split; [reflexivity|]. split; [reflexivity|]. split; [reflexivity|].
      discriminate.
    + rewrite Hsplit. exists (String c piece), pieces, rest.
      split; [reflexivity|]. split; [simpl; rewrite Hc; exact Hfree|].
      split; [change (String c s = String c (String.append piece rest)); f_equal; exact Hs|].
      intros H. destruct (Hwhole H) as [-> ->]. split; reflexivity.
Qed.

Lemma split_before (separator : Ascii.ascii) (date time : string) :
  contains separator date = false →
  split separator (String.append date (String separator time))
    = date :: split separator time.
Proof.
  induction date as [|c date IH]; simpl.
  - intros _. rewrite Ascii.eqb_refl. reflexivity.
  - intros [Hc Hfree]%orb_false_elim. rewrite Hc, (IH Hfree). reflexivity.
Qed.
End DateFacts.

(** X15: the default of [trackerEntries.date] is always defined; it is the
    text of the clock up to, and without, its first [T], so it holds no
    [T]; for a clock text [date T time] whose date part holds no [T] it is
    the date part, and for a text without any [T] it is the whole text. *)
Theorem tracker_entry_default_date :
  (∀ iso, ∃ date rest,
      trackerEntries.date_default iso = Some date
      ∧ trackerEntries.contains "T" date = false
      ∧ iso = String.append date rest)
  ∧ (∀ date time,
       trackerEntries.contains "T" date = false →
       trackerEntries.date_default (String.append date (String "T" time))
         = Some date)
  ∧ (∀ iso,
       trackerEntries.contains "T" iso = false →
       trackerEntries.date_default iso = Some iso).
Proof.
  unfold trackerEntries.date_default. split; [|split].
  - intros iso.
    destruct (split_head "T" iso) as (piece & pieces & rest & -> & Hfree & Hs & _).
    exists piece, rest. auto.
  - intros date time Hfree. rewrite split_before by exact Hfree. reflexivity.
  - intros iso Hfree.
    destruct (split_head "T" iso) as (piece & pieces & rest & -> & _ & _ & Hwhole).
    destruct (Hwhole Hfree) as [-> _]. reflexivity.
Qed.

Lemma tracker_entry_default_date_witness :
  trackerEntries.date_default "2024-01-10T08:00:00.000Z" = Some "2024-01-10"
  ∧ trackerEntries.date_default "2024-01-10" = Some "2024-01-10".
Proof.
  split.
  - apply (proj1 (proj2 tracker_entry_default_date) "2024-01-10" "08:00:00.000Z").
    reflexivity.
  - apply (proj2 (proj2 tracker_entry_default_date) "2024-01-10"). reflexivity.
Defined.

(** ** Column defaults and enum values *)

(** X16: the defaults of the status-like columns are members of the value
    lists their TypeScript types are made from: a transaction inserted
    without a status is [posted], one of [transactionStatusValues]; an
    invoice inserted without status, template and delivery type gets
    values of [invoiceStatusValues], [invoiceSizeValues] and
    [invoiceDeliveryTypeValues]; an inbox item inserted without a status
    gets one of [inboxStatusValues]. *)
Theorem column_defaults_are_enum_values :
  (∀ generatedId now date name method amount currency teamId bankAccountId
     internalId baseAmount baseCurrency,
      ∃ st, transactions.status
              (transactions.create generatedId now date name method amount
                 currency teamId bankAccountId internalId baseAmount baseCurrency)
            = Some st
            ∧ st ∈ transactionStatusValues)
  ∧ (∀ generatedId now token teamId invoiceNumber issueDate,
       let r := invoices.create generatedId now token teamId invoiceNumber
                  issueDate None in
       ∃ st size delivery,
         invoices.status r = Some st ∧ st ∈ invoiceStatusValues
         ∧ invoices.template r = Some size ∧ size ∈ invoiceSizeValues
         ∧ invoices.deliveryType r = Some delivery
         ∧ delivery ∈ invoiceDeliveryTypeValues)
  ∧ (∀ generatedId now teamId referenceId amount currency date attachments,
       ∃ st, inbox.status
               (inbox.create generatedId now teamId None referenceId amount
                  currency date attachments)
             = Some st
             ∧ st ∈ inboxStatusValues).
Proof.
  split; [|split].
  - intros. exists "posted". split; [reflexivity|].
    apply (bool_decide_unpack _). vm_compute. exact I.
  - intros. exists "draft", "a4", "create".
    repeat split; try reflexivity; apply (bool_decide_unpack _); vm_compute; exact I.
  - intros. exists "pending". split; [reflexivity|].
    apply (bool_decide_unpack _). vm_compute. exact I.
Qed.

(** ** Updates and the unique index *)


